(** * redislock: a shallow embedding of [redislock.go]

    The development follows the source file top to bottom: machine
    integers and [time.Duration], the error values, the retry strategies
    ([linearBackoff], [limitedRetry], [exponentialBackoff]), the random
    token and its base64 encoding, the [Client.Obtain] loop, and the
    [Lock] accessors.  The world outside the package (clock, random
    source, redis binding, cancellation context) is explicit state. *)

From Stdlib Require Import ZArith NArith List String Ascii Bool Lia.
From Stdlib Require Import DecimalString DecimalZ DecimalPos.
Import ListNotations.
Open Scope Z_scope.

(** ** Machine integers *)

Module GoInt.

(** [uint] and [int] are 64 bits wide on the modelled platform. *)
Definition uint_mod : Z := 2 ^ 64.
Definition int_min : Z := - 2 ^ 63.
Definition int_max : Z := 2 ^ 63 - 1.

Definition wrap_uint (x : Z) : Z := x mod uint_mod.
Definition wrap_int (x : Z) : Z := (x + 2 ^ 63) mod uint_mod - 2 ^ 63.

Definition in_uint (x : Z) : Prop := 0 <= x < uint_mod.
Definition in_int (x : Z) : Prop := int_min <= x <= int_max.

(** [x << s] on [int], for a shift count [s] held in a [uint]. *)
Definition shl_int (x s : Z) : Z := wrap_int (Z.shiftl x s).
Definition mul_int (x y : Z) : Z := wrap_int (x * y).
Definition add_int (x y : Z) : Z := wrap_int (x + y).

End GoInt.
Import GoInt.

(** ** [time.Duration]: an [int64] count of nanoseconds *)

Definition Duration : Type := Z.
Definition Nanosecond : Duration := 1.
Definition Millisecond : Duration := 1000000.

(** ** Errors *)

Inductive error : Type :=
| ErrNotObtained            (* "redislock: not obtained" *)
| ErrLockNotHeld            (* "redislock: lock not held" *)
| Canceled                  (* context.Canceled *)
| DeadlineExceeded          (* context.DeadlineExceeded *)
| ErrOther (msg : string).  (* any error of a collaborator *)

(** ** Retry strategies *)

(** The [RetryStrategy] interface has one method without arguments, so an
    implementation outside the package is determined by the durations it
    hands out call after call: [otherStrategy next pos]. *)
Inductive RetryStrategy : Type :=
| linearBackoff (backoff : Duration)
| limitedRetry (s : RetryStrategy) (cnt max : Z)
| exponentialBackoff (cnt : Z) (min max : Duration)
| otherStrategy (next : nat -> Duration) (pos : nat).

Definition LinearBackoff (backoff : Duration) : RetryStrategy :=
  linearBackoff backoff.

Definition NoRetry : RetryStrategy := linearBackoff 0.

Definition LimitRetry (s : RetryStrategy) (max : Z) : RetryStrategy :=
  limitedRetry s 0 max.

Definition ExponentialBackoff (min max : Duration) : RetryStrategy :=
  exponentialBackoff 0 min max.

(** The body of [exponentialBackoff.NextBackoff] after [r.cnt++]. *)
Definition exponentialDelay (cnt : Z) (min max : Duration) : Duration :=
  let ms := if cnt <? 25 then shl_int 2 cnt else shl_int 2 25 in
  let d := mul_int ms Millisecond in
  if d <? min then min
  else if negb (max =? 0) && (d >? max) then max
  else d.

Fixpoint NextBackoff (r : RetryStrategy) : Duration * RetryStrategy :=
  match r with
  | linearBackoff backoff => (backoff, r)
  | limitedRetry s cnt max =>
      if cnt >=? max then (0, r)
      else
        let cnt' := add_int cnt 1 in
        let '(d, s') := NextBackoff s in
        (d, limitedRetry s' cnt' max)
  | exponentialBackoff cnt min max =>
      let cnt' := wrap_uint (cnt + 1) in
      (exponentialDelay cnt' min max, exponentialBackoff cnt' min max)
  | otherStrategy next pos => (next pos, otherStrategy next (S pos))
  end.

(** The strategy as the first [n] calls leave it, and what call number [n]
    (counted from 1) returns. *)
Definition afterCalls (n : N) (r : RetryStrategy) : RetryStrategy :=
  N.iter n (fun r' => snd (NextBackoff r')) r.

Definition nthBackoff (n : N) (r : RetryStrategy) : Duration :=
  fst (NextBackoff (afterCalls (N.pred n) r)).

(** The first [n] results, in call order. *)
Fixpoint backoffs (n : nat) (r : RetryStrategy) : list Duration :=
  match n with
  | O => []
  | S n' => let '(d, r') := NextBackoff r in d :: backoffs n' r'
  end.

(** The specification's words for [ExponentialBackoff(min, max)], to compare
    with the code: clamping into [[min, max]], a zero [max] being no upper
    bound, applied to [2 * 2^min(n,25)] milliseconds for call number [n]. *)
Definition clampBackoff (d min max : Duration) : Duration :=
  if d <? min then min
  else if negb (max =? 0) && (d >? max) then max
  else d.

Definition exponentialSpec (n : Z) (min max : Duration) : Duration :=
  clampBackoff (2 * 2 ^ (Z.min n 25) * Millisecond) min max.

(** ** Strings as Go has them: byte sequences, sliced by index *)

(** [s[:n]] and [s[n:]]; [None] is the run-time panic of an index beyond
    [len(s)]. *)
Definition sliceTo (s : string) (n : nat) : option string :=
  if (String.length s <? n)%nat then None
  else Some (substring 0 n s).

Definition sliceFrom (s : string) (n : nat) : option string :=
  if (String.length s <? n)%nat then None
  else Some (substring n (String.length s - n) s).

(** [strconv.FormatInt(i, 10)] and its inverse, as a binding parses it. *)
Definition FormatInt (i : Z) : string := NilZero.string_of_int (Z.to_int i).

Definition ParseInt (s : string) : option Z :=
  option_map Z.of_int (NilZero.int_of_string s).

(** ** [base64.RawURLEncoding.EncodeToString] *)

Definition encodeURL : string :=
  "ABCDEFGHIJKLMNOPQRSTUVWXYZabcdefghijklmnopqrstuvwxyz0123456789-_".

(** The alphabet letter of the six bits of [v] that start at bit [shift]. *)
Definition sextet (v shift : N) : ascii :=
  nth (N.to_nat (N.land (N.shiftr v shift) 63))
      (list_ascii_of_string encodeURL) "A"%char.

Definition byteVal (b : Byte.byte) : N := Byte.to_N b.

Fixpoint EncodeToString (src : list Byte.byte) : string :=
  match src with
  | [] => EmptyString
  | [b0] =>
      let v := N.shiftl (byteVal b0) 16 in
      String (sextet v 18) (String (sextet v 12) EmptyString)
  | [b0; b1] =>
      let v := N.lor (N.shiftl (byteVal b0) 16) (N.shiftl (byteVal b1) 8) in
      String (sextet v 18) (String (sextet v 12)
        (String (sextet v 6) EmptyString))
  | b0 :: b1 :: b2 :: rest =>
      let v := N.lor (N.lor (N.shiftl (byteVal b0) 16)
                            (N.shiftl (byteVal b1) 8)) (byteVal b2) in
      String (sextet v 18) (String (sextet v 12)
        (String (sextet v 6) (String (sextet v 0) (EncodeToString rest))))
  end.

(** The size of the scratch buffer [randomToken] allocates. *)
Definition tokenBytes : nat := 16.

(** ** The world outside the package *)

(** One [io.ReadFull(rand.Reader, buf)]: the source either fills the whole
    buffer, byte [i] with [bytes i], or fails. *)
Inductive RandResult : Type :=
| RandOK (bytes : nat -> Byte.byte)
| RandErr (e : error).

(** The monotonic clock in nanoseconds, the delays the scheduler and the
    network add (consumed one per observable step), and the results of the
    successive reads of the random source. *)
Record World : Type := mkWorld {
  now : Z;
  lags : list N;
  entropy : list RandResult
}.

Definition elapse (extra : Z) (w : World) : World :=
  match lags w with
  | [] => mkWorld (now w + extra) [] (entropy w)
  | lag :: rest => mkWorld (now w + extra + Z.of_N lag) rest (entropy w)
  end.

Definition ReadFull (buf : list Byte.byte) (w : World)
  : list Byte.byte * option error * World :=
  match entropy w with
  | [] => (buf, Some (ErrOther "EOF"), w)
  | RandErr e :: rest =>
      (buf, Some e, elapse 0 (mkWorld (now w) (lags w) rest))
  | RandOK bytes :: rest =>
      (map bytes (seq 0 (List.length buf)), None,
       elapse 0 (mkWorld (now w) (lags w) rest))
  end.

(** A [context.Context] as the loop sees it: entry [k] says whether [Done()]
    is closed before the [k]-th backoff timer fires, and with which [Err()].
    The background context is never done. *)
Definition Context : Type := list (option error).
Definition Background : Context := [].

(** [select { case <-ctx.Done(): ... case <-timer.C: }] *)
Definition selectDone (ctx : Context) : option error * Context :=
  match ctx with
  | [] => (None, [])
  | done :: rest => (done, rest)
  end.

(** ** The [RedisClient] interface *)

Class RedisClient (R : Type) : Type := {
  SetNX : R -> string -> string -> Duration -> bool * option error * R;
  Refresh : R -> string -> string -> string -> option error * R;
  Release : R -> string -> string -> option error * R;
  TTL : R -> string -> string -> Z * option error * R
}.

(** ** Options *)

Record Options : Type := mkOptions {
  opt_RetryStrategy : option RetryStrategy;
  opt_Metadata : string;
  opt_Context : option Context
}.

Definition getMetadata (o : option Options) : string :=
  match o with
  | Some o' => opt_Metadata o'
  | None => EmptyString
  end.

Definition getContext (o : option Options) : Context :=
  match o with
  | Some o' =>
      match opt_Context o' with
      | Some ctx => ctx
      | None => Background
      end
  | None => Background
  end.

Definition getRetryStrategy (o : option Options) : RetryStrategy :=
  match o with
  | Some o' =>
      match opt_RetryStrategy o' with
      | Some r => r
      | None => NoRetry
      end
  | None => NoRetry
  end.

(** ** Client and Lock *)

(** What one [Obtain] does, in order: the token it draws, every reading of
    the clock ([time.Now()]), every conditional set with its result, every
    backoff the strategy returns and every wait with its end ([None]: the
    timer fired; [Some e]: the context was done, with [Err()] = [e]). *)
Inductive Event : Type :=
| EvToken (token : string) (err : option error)
| EvNow (t : Z)
| EvSetNX (key value : string) (ttl : Duration)
          (ok : bool) (err : option error)
| EvBackoff (backoff : Duration)
| EvWait (backoff : Duration) (done : option error).

(** The [client] pointer of a lock designates the client of the state the
    lock operations are run in. *)
Record Lock : Type := mkLock {
  key : string;
  value : string
}.

Inductive Outcome : Type :=
| Locked (l : Lock)
| Failed (err : error).

Section WithRedis.

Context {R : Type} `{RedisClient R}.

Record Client : Type := mkClient {
  redisClient : R;
  tmp : list Byte.byte
}.

Definition New (rc : R) : Client := mkClient rc [].

(** The buffer of a client is empty (never used) or holds 16 bytes. *)
Definition wfClient (c : Client) : Prop :=
  List.length (tmp c) = 0%nat \/ List.length (tmp c) = tokenBytes.

Definition Client_randomToken (c : Client) (w : World)
  : string * option error * Client * World :=
  let buf := if (List.length (tmp c) =? 0)%nat
             then repeat Byte.x00 tokenBytes else tmp c in
  let '(buf', err, w') := ReadFull buf w in
  match err with
  | Some e => (EmptyString, Some e, mkClient (redisClient c) buf', w')
  | None => (EncodeToString buf', None, mkClient (redisClient c) buf', w')
  end.

Definition Client_obtain (rc : R) (key value : string) (ttl : Duration)
  : bool * option error * R :=
  SetNX rc key value ttl.

Record Run : Type := mkRun {
  outcome : Outcome;
  retry_end : RetryStrategy;
  redis_end : R;
  world_end : World;
  events : list Event
}.

Definition before (evs : list Event) (r : Run) : Run :=
  mkRun (outcome r) (retry_end r) (redis_end r) (world_end r)
        (evs ++ events r).

(** The [for] loop of [Obtain], from the evaluation of its condition;
    one unit of [fuel] per iteration. *)
Fixpoint obtainLoop (fuel : nat) (deadline : Z) (key value : string)
    (ttl : Duration) (ctx : Context) (retry : RetryStrategy)
    (rc : R) (w : World) : option Run :=
  match fuel with
  | O => None
  | S fuel' =>
      let tick := EvNow (now w) in
      if now w <? deadline then
        let '(ok, err, rc1) := Client_obtain rc key value ttl in
        let set := EvSetNX key value ttl ok err in
        let w1 := elapse 0 w in
        match err with
        | Some e => Some (mkRun (Failed e) retry rc1 w1 [tick; set])
        | None =>
            if ok then
              Some (mkRun (Locked (mkLock key value)) retry rc1 w1
                          [tick; set])
            else
              let '(backoff, retry1) := NextBackoff retry in
              if backoff <? 1 then
                Some (mkRun (Failed ErrNotObtained) retry1 rc1 w1
                            [tick; set; EvBackoff backoff])
              else
                let '(done, ctx1) := selectDone ctx in
                match done with
                | Some e =>
                    Some (mkRun (Failed e) retry1 rc1 (elapse 0 w1)
                                [tick; set; EvBackoff backoff;
                                 EvWait backoff (Some e)])
                | None =>
                    option_map
                      (before [tick; set; EvBackoff backoff;
                               EvWait backoff None])
                      (obtainLoop fuel' deadline key value ttl ctx1
                                  retry1 rc1 (elapse backoff w1))
                end
        end
      else Some (mkRun (Failed ErrNotObtained) retry rc w [tick])
  end.

(** Iterations the loop can need: every completed wait moves the clock
    by at least one nanosecond. *)
Definition loopFuel (deadline : Z) (w : World) : nat :=
  S (Z.to_nat (deadline - now w)).

Definition Client_Obtain (c : Client) (key : string) (ttl : Duration)
    (opt : option Options) (w : World) : option (Run * Client) :=
  let '(token, err, c1, w1) := Client_randomToken c w in
  match err with
  | Some e =>
      Some (mkRun (Failed e) (getRetryStrategy opt) (redisClient c1) w1
                  [EvToken token err], c1)
  | None =>
      let value := (token ++ getMetadata opt)%string in
      let ctx := getContext opt in
      let retry := getRetryStrategy opt in
      let deadline := now w1 + ttl in
      let w2 := elapse 0 w1 in
      match obtainLoop (loopFuel deadline w2) deadline key value ttl
                       ctx retry (redisClient c1) w2 with
      | Some r =>
          Some (before [EvToken token err; EvNow (now w1)] r,
                mkClient (redis_end r) (tmp c1))
      | None => None
      end
  end.

Definition Obtain (rc : R) (key : string) (ttl : Duration)
    (opt : option Options) (w : World) : option (Run * Client) :=
  Client_Obtain (New rc) key ttl opt w.

Definition Lock_Key (l : Lock) : string := key l.

Definition Lock_Token (l : Lock) : option string := sliceTo (value l) 22.

Definition Lock_Metadata (l : Lock) : option string :=
  sliceFrom (value l) 22.

Definition Lock_TTL (l : Lock) (c : Client)
  : Duration * option error * Client :=
  let '(res, err, rc) := TTL (redisClient c) (key l) (value l) in
  let c' := mkClient rc (tmp c) in
  match err with
  | Some e => (0, Some e, c')
  | None =>
      if res >? 0 then (mul_int res Millisecond, None, c')
      else (0, None, c')
  end.

Definition Lock_Refresh (l : Lock) (ttl : Duration) (opt : option Options)
    (c : Client) : option error * Client :=
  let '(err, rc) :=
    Refresh (redisClient c) (key l) (value l)
            (FormatInt (Z.quot ttl Millisecond)) in
  (err, mkClient rc (tmp c)).

Definition Lock_Release (l : Lock) (c : Client) : option error * Client :=
  let '(err, rc) := Release (redisClient c) (key l) (value l) in
  (err, mkClient rc (tmp c)).

End WithRedis.

Arguments Client : clear implicits.
Arguments Run : clear implicits.

(** ** The shape of a run of the loop

    [loopTrace deadline key value ttl lo evs out]: the events [evs] and the
    outcome [out] of the loop when its condition is first evaluated no
    earlier than [lo].  One constructor per way out of an iteration. *)
Inductive loopTrace (deadline : Z) (key value : string) (ttl : Duration)
  : Z -> list Event -> Outcome -> Prop :=
| trace_deadline lo t :
    lo <= t -> deadline <= t ->
    loopTrace deadline key value ttl lo [EvNow t] (Failed ErrNotObtained)
| trace_error lo t ok e :
    lo <= t -> t < deadline ->
    loopTrace deadline key value ttl lo
              [EvNow t; EvSetNX key value ttl ok (Some e)] (Failed e)
| trace_locked lo t :
    lo <= t -> t < deadline ->
    loopTrace deadline key value ttl lo
              [EvNow t; EvSetNX key value ttl true None]
              (Locked (mkLock key value))
| trace_exhausted lo t d :
    lo <= t -> t < deadline -> d < 1 ->
    loopTrace deadline key value ttl lo
              [EvNow t; EvSetNX key value ttl false None; EvBackoff d]
              (Failed ErrNotObtained)
| trace_cancelled lo t d e :
    lo <= t -> t < deadline -> 1 <= d ->
    loopTrace deadline key value ttl lo
              [EvNow t; EvSetNX key value ttl false None; EvBackoff d;
               EvWait d (Some e)]
              (Failed e)
| trace_retry lo t d evs out :
    lo <= t -> t < deadline -> 1 <= d ->
    loopTrace deadline key value ttl (t + d) evs out ->
    loopTrace deadline key value ttl lo
              (EvNow t :: EvSetNX key value ttl false None :: EvBackoff d ::
               EvWait d None :: evs)
              out.

(** ** A binding to test against

    A single redis instance in memory, running the three Lua scripts of the
    package over a table of [key -> (value, remaining milliseconds)].  Each
    call first takes the next entry of [faults]: [Some e] makes the round
    trip fail with [e]. *)

Record MemRedis : Type := mkMemRedis {
  cells : list (string * (string * Z));
  faults : list (option error)
}.

Definition nextFault (m : MemRedis) : option error * MemRedis :=
  match faults m with
  | [] => (None, m)
  | f :: rest => (f, mkMemRedis (cells m) rest)
  end.

Fixpoint redisGet (k : string) (cs : list (string * (string * Z)))
  : option (string * Z) :=
  match cs with
  | [] => None
  | (k', c) :: rest => if String.eqb k k' then Some c else redisGet k rest
  end.

Fixpoint redisDel (k : string) (cs : list (string * (string * Z)))
  : list (string * (string * Z)) :=
  match cs with
  | [] => []
  | (k', c) :: rest =>
      if String.eqb k k' then redisDel k rest else (k', c) :: redisDel k rest
  end.

Definition holds (k v : string) (m : MemRedis) : bool :=
  match redisGet k (cells m) with
  | Some (v', _) => String.eqb v' v
  | None => false
  end.

Definition memSetNX (m : MemRedis) (k v : string) (ttl : Duration)
  : bool * option error * MemRedis :=
  let '(f, m1) := nextFault m in
  match f with
  | Some e => (false, Some e, m1)
  | None =>
      match redisGet k (cells m1) with
      | Some _ => (false, None, m1)
      | None =>
          (true, None,
           mkMemRedis ((k, (v, Z.quot ttl Millisecond)) :: cells m1)
                      (faults m1))
      end
  end.

(** [LuaRefreshScript] *)
Definition memRefresh (m : MemRedis) (k v ttl : string)
  : option error * MemRedis :=
  let '(f, m1) := nextFault m in
  match f with
  | Some e => (Some e, m1)
  | None =>
      if holds k v m1 then
        match ParseInt ttl with
        | Some ms =>
            (None, mkMemRedis ((k, (v, ms)) :: redisDel k (cells m1))
                              (faults m1))
        | None => (Some (ErrOther "ERR value is not an integer"), m1)
        end
      else (Some ErrNotObtained, m1)
  end.

(** [LuaReleaseScript] *)
Definition memRelease (m : MemRedis) (k v : string)
  : option error * MemRedis :=
  let '(f, m1) := nextFault m in
  match f with
  | Some e => (Some e, m1)
  | None =>
      if holds k v m1 then
        (None, mkMemRedis (redisDel k (cells m1)) (faults m1))
      else (Some ErrLockNotHeld, m1)
  end.

(** [LuaPTTLScript] *)
Definition memTTL (m : MemRedis) (k v : string)
  : Z * option error * MemRedis :=
  let '(f, m1) := nextFault m in
  match f with
  | Some e => (0, Some e, m1)
  | None =>
      match redisGet k (cells m1) with
      | Some (v', ms) =>
          if String.eqb v' v then (ms, None, m1) else (-3, None, m1)
      | None => (-3, None, m1)
      end
  end.

#[export] Instance MemRedis_RedisClient : RedisClient MemRedis := {
  SetNX := memSetNX;
  Refresh := memRefresh;
  Release := memRelease;
  TTL := memTTL
}.

Definition emptyRedis : MemRedis := mkMemRedis [] [].

(** Inputs for the examples: a store where ["k"] is taken by another
    holder, one where a round trip fails, a random source with two fills
    left, a clock at zero without delays. *)
Definition busyRedis : MemRedis :=
  mkMemRedis [("k"%string, ("other"%string, 50))] [].

Definition brokenRedis : MemRedis :=
  mkMemRedis [] [Some (ErrOther "connection refused")].

Definition quietWorld : World :=
  mkWorld 0 [] [RandOK (fun _ => Byte.x00); RandOK (fun _ => Byte.xff)].

Definition retryThrice : option Options :=
  Some (mkOptions (Some (LimitRetry (LinearBackoff (10 * Millisecond)) 3))
                  "meta" None).

(** A context that is done, cancelled, during the second wait. *)
Definition cancelledLater : option Options :=
  Some (mkOptions (Some (LinearBackoff (10 * Millisecond)))
                  "" (Some [None; Some Canceled])).

(** A store where ["k"] expires in 9223372036855 ms, one millisecond more
    than an [int64] of nanoseconds can hold. *)
Definition farRedis : MemRedis :=
  mkMemRedis [("k"%string, ("mine"%string, 9223372036855))] [].

(** A random source that fails, and a lease of 25 ms tried every 10 ms. *)
Definition dryWorld : World :=
  mkWorld 0 [] [RandErr (ErrOther "entropy unavailable")].

Definition retryEvery10ms : option Options :=
  Some (mkOptions (Some (LinearBackoff (10 * Millisecond))) "" None).

(** The number of backoff waits among the events. *)
Fixpoint waits (evs : list Event) : nat :=
  match evs with
  | [] => O
  | EvWait _ _ :: rest => S (waits rest)
  | _ :: rest => waits rest
  end.

(** ** The binding across the sets of a call *)

Section StoreAfter.

Context {R : Type} `{RedisClient R}.

(** The binding as [n] conditional sets of the same key, value and TTL
    leave it. *)
Fixpoint storeAfter (n : nat) (rc : R) (key value : string) (ttl : Duration)
  : R :=
  match n with
  | O => rc
  | S n' => storeAfter n' (snd (SetNX rc key value ttl)) key value ttl
  end.

End StoreAfter.

(** ** The six-bit digits of the encoder *)

(** The index into the alphabet that [sextet] looks up. *)
Definition sextetIndex (v shift : N) : N := N.land (N.shiftr v shift) 63.

(** The 24-bit group three source bytes form. *)
Definition group24 (b0 b1 b2 : Byte.byte) : N :=
  N.lor (N.lor (N.shiftl (byteVal b0) 16) (N.shiftl (byteVal b1) 8))
        (byteVal b2).

(** ** Measures of a run *)

(** The number of conditional sets among the events. *)
Fixpoint attempts (evs : list Event) : nat :=
  match evs with
  | [] => O
  | EvSetNX _ _ _ _ _ :: rest => S (attempts rest)
  | _ :: rest => attempts rest
  end.

(** The time spent in waits that the timer ended. *)
Fixpoint slept (evs : list Event) : Z :=
  match evs with
  | [] => 0
  | EvWait d None :: rest => d + slept rest
  | _ :: rest => slept rest
  end.

(** ** The Lua scripts and the bindings of [examples/]

    The redis server is outside the repository: it is a parameter, a state
    with the five commands the package sends.  A reply is what the wire
    protocol can carry. *)

Inductive Reply : Type :=
| RInt (i : Z)
| RBulk (s : string)
| RStatus (s : string)
| RNil
| RError (e : error).

Class RedisServer (Srv : Type) : Type := {
  GET : Srv -> string -> Reply * Srv;
  SET_PX_NX : Srv -> string -> string -> Z -> Reply * Srv;
  PEXPIRE : Srv -> string -> string -> Reply * Srv;
  DEL : Srv -> string -> Reply * Srv;
  PTTL : Srv -> string -> Reply * Srv
}.

(** A connection: the server, and for each round trip to come whether the
    transport fails before the command reaches the server. *)
Record Conn (Srv : Type) : Type := mkConn {
  server : Srv;
  outages : list (option error)
}.

Arguments mkConn {Srv} _ _.
Arguments server {Srv} _.
Arguments outages {Srv} _.

(** What the reply helpers of the client libraries give: a value, the
    library's "nil reply" error ([redis.ErrNil], [redis.Nil]), or another
    error. *)
Inductive Converted (A : Type) : Type :=
| Got (a : A)
| NilReply
| Broke (e : error).

Arguments Got {A} _.
Arguments NilReply {A}.
Arguments Broke {A} _.

(** [redis.ErrNil] of redigo and [redis.Nil] of go-redis, as errors. *)
Definition redigoErrNil : error := ErrOther "redigo: nil returned".
Definition goredisNil : error := ErrOther "redis: nil".

(** [time.Duration.Milliseconds] *)
Definition Milliseconds (d : Duration) : Z := Z.quot d Millisecond.

(** redigo's [redis.Int64] and [redis.String] on a reply. *)
Definition redigoInt64 (r : Reply) : Converted Z :=
  match r with
  | RInt i => Got i
  | RBulk s =>
      match ParseInt s with
      | Some i => Got i
      | None => Broke (ErrOther "strconv.ParseInt: invalid syntax")
      end
  | RNil => NilReply
  | RError e => Broke e
  | RStatus _ => Broke (ErrOther "redigo: unexpected type for Int64")
  end.

Definition redigoString (r : Reply) : Converted string :=
  match r with
  | RBulk s => Got s
  | RStatus s => Got s
  | RNil => NilReply
  | RError e => Broke e
  | RInt _ => Broke (ErrOther "redigo: unexpected type for String")
  end.

(** go-redis's [Cmd.Result]: the reply as a value, or an error. *)
Definition goredisResult (r : Reply) : Converted Reply :=
  match r with
  | RNil => NilReply
  | RError e => Broke e
  | _ => Got r
  end.

Section Scripts.

Context {Srv : Type} `{RedisServer Srv}.

(** [redis.call] raises the error of a command, which ends the script with
    that error; a nil reply is [false] in Lua, so it equals no argument. *)

(** [if redis.call("get", KEYS[1]) == ARGV[1] then
       return redis.call("pexpire", KEYS[1], ARGV[2]) else return 0 end] *)
Definition LuaRefreshScript (srv : Srv) (keys1 argv1 argv2 : string)
  : Reply * Srv :=
  let '(got, srv1) := GET srv keys1 in
  match got with
  | RError e => (RError e, srv1)
  | RBulk v =>
      if String.eqb v argv1 then PEXPIRE srv1 keys1 argv2
      else (RInt 0, srv1)
  | _ => (RInt 0, srv1)
  end.

(** [if redis.call("get", KEYS[1]) == ARGV[1] then
       return redis.call("del", KEYS[1]) else return 0 end] *)
Definition LuaReleaseScript (srv : Srv) (keys1 argv1 : string)
  : Reply * Srv :=
  let '(got, srv1) := GET srv keys1 in
  match got with
  | RError e => (RError e, srv1)
  | RBulk v =>
      if String.eqb v argv1 then DEL srv1 keys1
      else (RInt 0, srv1)
  | _ => (RInt 0, srv1)
  end.

(** [if redis.call("get", KEYS[1]) == ARGV[1] then
       return redis.call("pttl", KEYS[1]) else return -3 end] *)
Definition LuaPTTLScript (srv : Srv) (keys1 argv1 : string) : Reply * Srv :=
  let '(got, srv1) := GET srv keys1 in
  match got with
  | RError e => (RError e, srv1)
  | RBulk v =>
      if String.eqb v argv1 then PTTL srv1 keys1
      else (RInt (-3), srv1)
  | _ => (RInt (-3), srv1)
  end.

(** The next round trip: [Some e] when the transport fails. *)
Definition roundTrip (c : Conn Srv) : option error * Conn Srv :=
  match outages c with
  | [] => (None, c)
  | o :: rest => (o, mkConn (server c) rest)
  end.

(** *** [examples/garyburd/redisclient] *)

Definition garyburd_SetNX (c : Conn Srv) (key value : string) (ttl : Duration)
  : bool * option error * Conn Srv :=
  let '(out, c1) := roundTrip c in
  match out with
  | Some e => (false, Some e, c1)
  | None =>
      let '(reply, srv) :=
        SET_PX_NX (server c1) key value (Milliseconds ttl) in
      let c2 := mkConn srv (outages c1) in
      match redigoString reply with
      | NilReply => (false, None, c2)
      | Broke e => (false, Some e, c2)
      | Got _ => (true, None, c2)
      end
  end.

Definition garyburd_Refresh (c : Conn Srv) (key value ttl : string)
  : option error * Conn Srv :=
  let '(out, c1) := roundTrip c in
  match out with
  | Some e => (Some e, c1)
  | None =>
      let '(reply, srv) := LuaRefreshScript (server c1) key value ttl in
      let c2 := mkConn srv (outages c1) in
      match redigoInt64 reply with
      | NilReply => (Some redigoErrNil, c2)
      | Broke e => (Some e, c2)
      | Got status =>
          if status =? 1 then (None, c2) else (Some ErrNotObtained, c2)
      end
  end.

Definition garyburd_Release (c : Conn Srv) (key value : string)
  : option error * Conn Srv :=
  let '(out, c1) := roundTrip c in
  match out with
  | Some e => (Some e, c1)
  | None =>
      let '(reply, srv) := LuaReleaseScript (server c1) key value in
      let c2 := mkConn srv (outages c1) in
      match redigoInt64 reply with
      | NilReply => (Some ErrLockNotHeld, c2)
      | Broke e => (Some e, c2)
      | Got res =>
          if negb (res =? 1) then (Some ErrLockNotHeld, c2) else (None, c2)
      end
  end.

Definition garyburd_TTL (c : Conn Srv) (key value : string)
  : Z * option error * Conn Srv :=
  let '(out, c1) := roundTrip c in
  match out with
  | Some e => (0, Some e, c1)
  | None =>
      let '(reply, srv) := LuaPTTLScript (server c1) key value in
      let c2 := mkConn srv (outages c1) in
      match redigoInt64 reply with
      | NilReply => (0, None, c2)
      | Broke e => (0, Some e, c2)
      | Got res => (res, None, c2)
      end
  end.

(** *** [examples/goredis/redisclient], the three methods that run a
    script; [None] is the panic of a failed type assertion. *)

Definition goredis_Refresh (c : Conn Srv) (key value ttl : string)
  : option error * Conn Srv :=
  let '(out, c1) := roundTrip c in
  match out with
  | Some e => (Some e, c1)
  | None =>
      let '(reply, srv) := LuaRefreshScript (server c1) key value ttl in
      let c2 := mkConn srv (outages c1) in
      match goredisResult reply with
      | NilReply => (Some goredisNil, c2)
      | Broke e => (Some e, c2)
      | Got (RInt 1) => (None, c2)
      | Got _ => (Some ErrNotObtained, c2)
      end
  end.

Definition goredis_Release (c : Conn Srv) (key value : string)
  : option error * Conn Srv :=
  let '(out, c1) := roundTrip c in
  match out with
  | Some e => (Some e, c1)
  | None =>
      let '(reply, srv) := LuaReleaseScript (server c1) key value in
      let c2 := mkConn srv (outages c1) in
      match goredisResult reply with
      | NilReply => (Some ErrLockNotHeld, c2)
      | Broke e => (Some e, c2)
      | Got (RInt i) =>
          if negb (i =? 1) then (Some ErrLockNotHeld, c2) else (None, c2)
      | Got _ => (Some ErrLockNotHeld, c2)
      end
  end.

Definition goredis_TTL (c : Conn Srv) (key value : string)
  : option (Z * option error) * Conn Srv :=
  let '(out, c1) := roundTrip c in
  match out with
  | Some e => (Some (0, Some e), c1)
  | None =>
      let '(reply, srv) := LuaPTTLScript (server c1) key value in
      let c2 := mkConn srv (outages c1) in
      match goredisResult reply with
      | NilReply => (Some (0, None), c2)
      | Broke e => (Some (0, Some e), c2)
      | Got (RInt i) => (Some (i, None), c2)
      | Got _ => (None, c2)
      end
  end.

#[export] Instance garyburd_RedisClient : RedisClient (Conn Srv) := {
  SetNX := garyburd_SetNX;
  Refresh := garyburd_Refresh;
  Release := garyburd_Release;
  TTL := garyburd_TTL
}.

End Scripts.

(** A server to test against: one table of [key -> (value, milliseconds
    left)], with the replies the command reference gives. *)
Definition Table : Type := list (string * (string * Z)).

Definition tableGET (t : Table) (k : string) : Reply * Table :=
  match redisGet k t with
  | Some (v, _) => (RBulk v, t)
  | None => (RNil, t)
  end.

Definition tableSET (t : Table) (k v : string) (ms : Z) : Reply * Table :=
  if ms <=? 0 then (RError (ErrOther "ERR invalid expire time"), t)
  else
    match redisGet k t with
    | Some _ => (RNil, t)
    | None => (RStatus "OK", (k, (v, ms)) :: t)
    end.

Definition tablePEXPIRE (t : Table) (k arg : string) : Reply * Table :=
  match ParseInt arg with
  | None => (RError (ErrOther "ERR value is not an integer"), t)
  | Some ms =>
      match redisGet k t with
      | None => (RInt 0, t)
      | Some (v, _) =>
          if ms <=? 0 then (RInt 1, redisDel k t)
          else (RInt 1, (k, (v, ms)) :: redisDel k t)
      end
  end.

Definition tableDEL (t : Table) (k : string) : Reply * Table :=
  match redisGet k t with
  | Some _ => (RInt 1, redisDel k t)
  | None => (RInt 0, t)
  end.

Definition tablePTTL (t : Table) (k : string) : Reply * Table :=
  match redisGet k t with
  | Some (_, ms) => (RInt ms, t)
  | None => (RInt (-2), t)
  end.

#[export] Instance Table_RedisServer : RedisServer Table := {
  GET := tableGET;
  SET_PX_NX := tableSET;
  PEXPIRE := tablePEXPIRE;
  DEL := tableDEL;
  PTTL := tablePTTL
}.

(** A connection where ["k"] is held with the value ["mine"]. *)
Definition heldConn : Conn Table :=
  mkConn [("k"%string, ("mine"%string, 50))] [].

(** * Properties *)

(** ** Machine integers *)

Lemma wrap_int_id x : in_int x -> wrap_int x = x.
Proof.
  unfold in_int, int_min, int_max, wrap_int, uint_mod; intros Hx.
  rewrite Z.mod_small; lia.
Qed.

Lemma wrap_uint_id x : in_uint x -> wrap_uint x = x.
Proof.
  unfold in_uint, wrap_uint; intros Hx. now apply Z.mod_small.
Qed.

Lemma shl_int_small s : 0 <= s <= 25 -> shl_int 2 s = 2 * 2 ^ s.
Proof.
  intros Hs. unfold shl_int. rewrite Z.shiftl_mul_pow2 by lia.
  apply wrap_int_id. unfold in_int, int_min, int_max.
  assert (2 ^ s <= 2 ^ 25) by (apply Z.pow_le_mono_r; lia).
  assert (0 < 2 ^ s) by (apply Z.pow_pos_nonneg; lia).
  change (2 ^ 25) with 33554432 in *. lia.
Qed.

(** ** Retry strategies *)

Section Strategies.

Lemma afterCalls_succ n r :
  afterCalls (N.succ n) r = snd (NextBackoff (afterCalls n r)).
Proof. unfold afterCalls. now rewrite N.iter_succ. Qed.

Lemma afterCalls_add a b r :
  afterCalls (a + b) r = afterCalls a (afterCalls b r).
Proof. unfold afterCalls. apply N.iter_add. Qed.

Lemma afterCalls_exponential n cnt min max :
  in_uint cnt ->
  afterCalls n (exponentialBackoff cnt min max) =
  exponentialBackoff (wrap_uint (cnt + Z.of_N n)) min max.
Proof.
  intros Hc. induction n as [|n IH] using N.peano_ind.
  - cbn. rewrite Z.add_0_r, wrap_uint_id; auto.
  - rewrite afterCalls_succ, IH. cbn [NextBackoff snd]. f_equal.
    unfold wrap_uint, uint_mod. rewrite Zplus_mod_idemp_l.
    f_equal. lia.
Qed.

(** In range, the counter test and the shift compute the power the
    comment of [ExponentialBackoff] announces. *)
Lemma exponentialDelay_spec cnt min max :
  1 <= cnt < uint_mod ->
  exponentialDelay cnt min max = exponentialSpec cnt min max.
Proof.
  intros Hc. unfold exponentialDelay, exponentialSpec, clampBackoff.
  assert (Hms : mul_int (if cnt <? 25 then shl_int 2 cnt else shl_int 2 25)
                  Millisecond = 2 * 2 ^ Z.min cnt 25 * Millisecond).
  { destruct (Z.ltb_spec cnt 25) as [Hlt|Hge].
    - rewrite Z.min_l by lia. rewrite shl_int_small by lia.
      unfold mul_int. apply wrap_int_id.
      unfold in_int, int_min, int_max, Millisecond.
      assert (2 ^ cnt <= 2 ^ 25) by (apply Z.pow_le_mono_r; lia).
      assert (0 < 2 ^ cnt) by (apply Z.pow_pos_nonneg; lia).
      change (2 ^ 25) with 33554432 in *. lia.
    - rewrite Z.min_r by lia. reflexivity. }
  rewrite Hms. reflexivity.
Qed.

Lemma nthBackoff_exponential n min max :
  (1 <= n)%N ->
  nthBackoff n (ExponentialBackoff min max) =
  exponentialDelay (wrap_uint (Z.of_N n)) min max.
Proof.
  intros Hn. unfold nthBackoff, ExponentialBackoff.
  rewrite afterCalls_exponential by (unfold in_uint, uint_mod; lia).
  cbn [NextBackoff fst]. f_equal.
  unfold wrap_uint, uint_mod. rewrite Zplus_mod_idemp_l.
  f_equal. lia.
Qed.

Lemma clampBackoff_cases d min max :
  (d < min -> clampBackoff d min max = min) /\
  (min <= d -> max <> 0 -> d > max -> clampBackoff d min max = max) /\
  (min <= d -> max = 0 \/ d <= max -> clampBackoff d min max = d).
Proof.
  unfold clampBackoff.
  destruct (Z.ltb_spec d min), (Z.eqb_spec max 0), (Z.gtb_spec d max);
    cbn; repeat split; intros; try lia; try reflexivity.
Qed.

(** An exhausted [limitedRetry] stays as it is. *)
Lemma afterCalls_limited_done n s cnt max :
  max <= cnt ->
  afterCalls n (limitedRetry s cnt max) = limitedRetry s cnt max.
Proof.
  intros Hc. induction n as [|n IH] using N.peano_ind.
  - reflexivity.
  - rewrite afterCalls_succ, IH. cbn [NextBackoff].
    destruct (Z.geb_spec cnt max); [reflexivity | lia].
Qed.

(** Below the bound, the inner strategy has taken every call. *)
Lemma afterCalls_limited n s max :
  in_int max -> Z.of_N n <= max ->
  afterCalls n (LimitRetry s max) =
  limitedRetry (afterCalls n s) (Z.of_N n) max.
Proof.
  intros Hm. unfold LimitRetry.
  induction n as [|n IH] using N.peano_ind; intros Hn.
  - reflexivity.
  - rewrite !afterCalls_succ, IH by lia. cbn [NextBackoff].
    destruct (Z.geb_spec (Z.of_N n) max); [lia|].
    destruct (NextBackoff (afterCalls n s)) as [d s'] eqn:E.
    cbn [snd]. f_equal. unfold add_int.
    rewrite wrap_int_id; [lia|].
    unfold in_int, int_min, int_max in *. lia.
Qed.

Lemma nthBackoff_limited_below n s max :
  in_int max -> (1 <= n)%N -> Z.of_N n <= max ->
  nthBackoff n (LimitRetry s max) = nthBackoff n s.
Proof.
  intros Hm H1 Hn. unfold nthBackoff.
  rewrite afterCalls_limited by (auto; lia). cbn [NextBackoff].
  destruct (Z.geb_spec (Z.of_N (N.pred n)) max); [lia|].
  destruct (NextBackoff (afterCalls (N.pred n) s)). reflexivity.
Qed.

Lemma nthBackoff_limited_above n s max :
  in_int max -> (1 <= n)%N -> max < Z.of_N n ->
  nthBackoff n (LimitRetry s max) = 0.
Proof.
  intros Hm H1 Hn. unfold nthBackoff.
  set (m := Z.to_N (Z.max 0 max)).
  replace (N.pred n) with (N.pred n - m + m)%N by lia.
  rewrite afterCalls_add.
  destruct (Z.le_gt_cases 0 max) as [Hpos|Hneg].
  - rewrite afterCalls_limited by (auto; lia).
    rewrite afterCalls_limited_done by lia. cbn [NextBackoff].
    destruct (Z.geb_spec (Z.of_N m) max); [reflexivity | lia].
  - replace m with 0%N by lia. cbn [afterCalls N.iter].
    unfold LimitRetry. rewrite afterCalls_limited_done by lia.
    cbn [NextBackoff].
    destruct (Z.geb_spec 0 max); [reflexivity | lia].
Qed.

End Strategies.

(** C3: call number [n >= 1] of [ExponentialBackoff(min, max)] returns
    [2 * 2^min(n,25)] milliseconds clamped: [min] when the computed value
    is below [min]; [max] when [max] is nonzero and the value exceeds it;
    the computed value otherwise.  The call number is within the range of
    the [uint] counter, as it is in every run, or past it with the counter
    at 25 or more. *)
Theorem exponentialBackoff_nth_call (n : N) (min max : Duration) :
  (1 <= n)%N ->
  Z.of_N n < uint_mod \/ 25 <= Z.of_N n mod uint_mod ->
  let d := 2 * 2 ^ (Z.min (Z.of_N n) 25) * Millisecond in
  let got := nthBackoff n (ExponentialBackoff min max) in
  (d < min -> got = min) /\
  (min <= d -> max <> 0 -> d > max -> got = max) /\
  (min <= d -> max = 0 \/ d <= max -> got = d).
Proof.
  intros H1 Hn d got. subst got d.
  rewrite nthBackoff_exponential by assumption.
  assert (Hspec : exponentialDelay (wrap_uint (Z.of_N n)) min max
                  = exponentialSpec (Z.of_N n) min max).
  { destruct Hn as [Hlt|Hge].
    - rewrite wrap_uint_id by (unfold in_uint; lia).
      apply exponentialDelay_spec. lia.
    - unfold wrap_uint.
      assert (Hm : 0 <= Z.of_N n mod uint_mod < uint_mod)
        by (apply Z.mod_pos_bound; unfold uint_mod; lia).
      assert (Hle : Z.of_N n mod uint_mod <= Z.of_N n)
        by (apply Z.mod_le; unfold uint_mod; lia).
      rewrite exponentialDelay_spec by lia.
      unfold exponentialSpec. now rewrite !Z.min_r by lia. }
  rewrite Hspec. apply clampBackoff_cases.
Qed.

Lemma exponentialBackoff_nth_call_witness :
  nthBackoff 3 (ExponentialBackoff (16 * Millisecond) 0) = 16 * Millisecond /\
  nthBackoff 18446744073709551646 (ExponentialBackoff 0 0)
    = 2 * 2 ^ 25 * Millisecond.
Proof.
  split.
  - pose proof (exponentialBackoff_nth_call 3 (16 * Millisecond) 0) as Hc.
    cbv zeta in Hc.
    destruct Hc as (_ & _ & Hd); [lia | left; reflexivity | ].
    apply Hd; [vm_compute; discriminate | left; reflexivity].
  - pose proof (exponentialBackoff_nth_call 18446744073709551646 0 0) as Hc.
    cbv zeta in Hc.
    destruct Hc as (_ & _ & Hd);
      [lia | right; vm_compute; discriminate | ].
    rewrite Hd; [reflexivity | vm_compute; discriminate | left; reflexivity].
Defined.

(** C4: [LimitRetry(s, max)] hands each of its first [max] calls to [s],
    returning what [s] returns on that call, and returns zero on every
    later call whatever [s] is; [LimitRetry(LinearBackoff(10ms), 3)] gives
    10ms, 10ms, 10ms, 0. *)
Theorem limitedRetry_delegates_then_zero (s : RetryStrategy) (max : Z) :
  in_int max ->
  (forall n, (1 <= n)%N -> Z.of_N n <= max ->
             nthBackoff n (LimitRetry s max) = nthBackoff n s) /\
  (forall n, (1 <= n)%N -> max < Z.of_N n ->
             nthBackoff n (LimitRetry s max) = 0) /\
  backoffs 4 (LimitRetry (LinearBackoff (10 * Millisecond)) 3) =
  [10 * Millisecond; 10 * Millisecond; 10 * Millisecond; 0].
Proof.
  intros Hm. split; [|split].
  - intros n H1 Hn. now apply nthBackoff_limited_below.
  - intros n H1 Hn. now apply nthBackoff_limited_above.
  - reflexivity.
Qed.

Lemma limitedRetry_delegates_then_zero_witness :
  nthBackoff 2 (LimitRetry (otherStrategy (fun k => Z.of_nat k + 5) 0) 3) = 6 /\
  nthBackoff 4 (LimitRetry (otherStrategy (fun k => Z.of_nat k + 5) 0) 3) = 0.
Proof.
  assert (Hm : in_int 3) by (unfold in_int, int_min, int_max; lia).
  destruct (limitedRetry_delegates_then_zero
              (otherStrategy (fun k => Z.of_nat k + 5) 0) 3 Hm)
    as (Hlow & Hhigh & _).
  split.
  - rewrite Hlow by lia. reflexivity.
  - apply Hhigh; lia.
Defined.

(** ** Strings *)

Lemma length_append (a b : string) :
  String.length (a ++ b) = (String.length a + String.length b)%nat.
Proof. induction a as [|c a IH]; cbn; [reflexivity | now rewrite IH]. Qed.

Lemma substring_all (s : string) : substring 0 (String.length s) s = s.
Proof. induction s as [|c s IH]; cbn; [reflexivity | now rewrite IH]. Qed.

Lemma substring_append_l (a b : string) :
  substring 0 (String.length a) (a ++ b) = a.
Proof.
  induction a as [|c a IH]; cbn.
  - destruct b; reflexivity.
  - now rewrite IH.
Qed.

Lemma substring_append_r (a b : string) :
  substring (String.length a) (String.length b) (a ++ b) = b.
Proof.
  induction a as [|c a IH]; cbn; [apply substring_all | exact IH].
Qed.

Lemma sliceTo_append (a b : string) :
  sliceTo (a ++ b) (String.length a) = Some a.
Proof.
  unfold sliceTo. rewrite length_append.
  destruct (Nat.ltb_spec (String.length a + String.length b)
                         (String.length a)); [lia|].
  now rewrite substring_append_l.
Qed.

Lemma sliceFrom_append (a b : string) :
  sliceFrom (a ++ b) (String.length a) = Some b.
Proof.
  unfold sliceFrom. rewrite length_append.
  destruct (Nat.ltb_spec (String.length a + String.length b)
                         (String.length a)); [lia|].
  replace (String.length a + String.length b - String.length a)%nat
    with (String.length b) by lia.
  now rewrite substring_append_r.
Qed.

(** ** base64 *)

(** Three bytes give four letters; one or two bytes left over give two or
    three letters, without padding. *)
Lemma EncodeToString_length (src : list Byte.byte) :
  String.length (EncodeToString src) = ((4 * List.length src + 2) / 3)%nat.
Proof.
  assert (Hall : forall n (l : list Byte.byte),
             (List.length l <= n)%nat ->
             String.length (EncodeToString l) =
             ((4 * List.length l + 2) / 3)%nat).
  { induction n as [|n IH];
    intros l Hl.
    - destruct l; [reflexivity | cbn in Hl; lia].
    - destruct l as [|b0 [|b1 [|b2 rest]]]; try reflexivity.
      cbn [EncodeToString String.length List.length].
      rewrite (IH rest) by (cbn in Hl; lia).
      replace (4 * S (S (S (List.length rest))) + 2)%nat
        with (4 * 3 + (4 * List.length rest + 2))%nat by lia.
      replace (4 * 3 + (4 * List.length rest + 2))%nat
        with ((4 * List.length rest + 2) + 4 * 3)%nat by lia.
      rewrite Nat.div_add by lia. lia. }
  apply (Hall (List.length src)). lia.
Qed.

Lemma token_length (src : list Byte.byte) :
  List.length src = tokenBytes ->
  String.length (EncodeToString src) = 22%nat.
Proof.
  intros Hl. rewrite EncodeToString_length, Hl. reflexivity.
Qed.

(** ** The clock and the random source *)

Lemma elapse_now (extra : Z) (w : World) :
  now w + extra <= now (elapse extra w).
Proof. unfold elapse. destruct (lags w); cbn; lia. Qed.

Lemma elapse_entropy (extra : Z) (w : World) :
  entropy (elapse extra w) = entropy w.
Proof. unfold elapse. destruct (lags w); reflexivity. Qed.

Lemma ReadFull_length buf w :
  List.length (fst (fst (ReadFull buf w))) = List.length buf.
Proof.
  unfold ReadFull. destruct (entropy w) as [|[bytes|e] rest]; cbn;
    try reflexivity.
  now rewrite length_map, length_seq.
Qed.

Lemma ReadFull_entropy buf w :
  entropy (snd (ReadFull buf w)) = tl (entropy w).
Proof.
  unfold ReadFull. destruct (entropy w) as [|[bytes|e] rest] eqn:E; cbn;
    rewrite ?elapse_entropy; cbn; auto.
Qed.

(** ** The loop of [Obtain] *)

Lemma loopTrace_weaken deadline key value ttl lo lo' evs out :
  lo' <= lo ->
  loopTrace deadline key value ttl lo evs out ->
  loopTrace deadline key value ttl lo' evs out.
Proof.
  intros Hlo Ht. destruct Ht.
  - apply trace_deadline; lia.
  - apply trace_error; lia.
  - apply trace_locked; lia.
  - apply trace_exhausted; lia.
  - apply trace_cancelled; lia.
  - apply trace_retry; auto; lia.
Qed.

Section Loop.

Context {R : Type} `{RedisClient R}.

(** The loop returns: the fuel [Obtain] gives it is enough. *)
Lemma obtainLoop_total fuel deadline key value ttl ctx retry (rc : R) w :
  (Z.to_nat (deadline - now w) < fuel)%nat ->
  exists r, obtainLoop fuel deadline key value ttl ctx retry rc w = Some r.
Proof.
  revert ctx retry rc w.
  induction fuel as [|fuel IH];
    intros ctx retry rc w Hfuel; [lia|].
  cbn [obtainLoop].
  destruct (Z.ltb_spec (now w) deadline) as [Hlt|Hge]; [|eauto].
  destruct (Client_obtain rc key value ttl) as [[ok err] rc1].
  destruct err as [e|]; [eauto|].
  destruct ok; [eauto|].
  destruct (NextBackoff retry) as [backoff retry1].
  destruct (Z.ltb_spec backoff 1) as [Hb|Hb]; [eauto|].
  destruct (selectDone ctx) as [[e|] ctx1]; [eauto|].
  destruct (IH ctx1 retry1 rc1 (elapse backoff (elapse 0 w))) as [r Hr].
  - pose proof (elapse_now 0 w).
    pose proof (elapse_now backoff (elapse 0 w)). lia.
  - rewrite Hr. cbn. eauto.
Qed.

(** Every run of the loop has the shape [loopTrace] gives. *)
Lemma obtainLoop_trace fuel deadline key value ttl ctx retry (rc : R) w r :
  obtainLoop fuel deadline key value ttl ctx retry rc w = Some r ->
  loopTrace deadline key value ttl (now w) (events r) (outcome r).
Proof.
  revert ctx retry rc w r.
  induction fuel as [|fuel IH];
    intros ctx retry rc w r Hr;
    [discriminate|].
  cbn [obtainLoop] in Hr.
  destruct (Z.ltb_spec (now w) deadline) as [Hlt|Hge].
  2: { injection Hr as <-. cbn. apply trace_deadline; lia. }
  destruct (Client_obtain rc key value ttl) as [[ok err] rc1].
  destruct err as [e|].
  { injection Hr as <-. cbn. apply trace_error; lia. }
  destruct ok.
  { injection Hr as <-. cbn. apply trace_locked; lia. }
  destruct (NextBackoff retry) as [backoff retry1].
  destruct (Z.ltb_spec backoff 1) as [Hb|Hb].
  { injection Hr as <-. cbn. apply trace_exhausted; lia. }
  destruct (selectDone ctx) as [[e|] ctx1].
  { injection Hr as <-. cbn. apply trace_cancelled; lia. }
  destruct (obtainLoop fuel deadline key value ttl ctx1 retry1 rc1
              (elapse backoff (elapse 0 w))) as [r'|] eqn:Hloop;
    [|discriminate].
  cbn in Hr. injection Hr as <-. cbn.
  apply trace_retry; try lia.
  apply IH in Hloop.
  eapply loopTrace_weaken; [|exact Hloop].
  pose proof (elapse_now 0 w).
  pose proof (elapse_now backoff (elapse 0 w)). lia.
Qed.

(** The loop never reads the random source. *)
Lemma obtainLoop_entropy fuel deadline key value ttl ctx retry (rc : R) w r :
  obtainLoop fuel deadline key value ttl ctx retry rc w = Some r ->
  entropy (world_end r) = entropy w.
Proof.
  revert ctx retry rc w r.
  induction fuel as [|fuel IH];
    intros ctx retry rc w r Hr;
    [discriminate|].
  cbn [obtainLoop] in Hr.
  destruct (now w <? deadline).
  2: { now injection Hr as <-. }
  destruct (Client_obtain rc key value ttl) as [[ok err] rc1].
  destruct err as [e|].
  { injection Hr as <-. cbn. apply elapse_entropy. }
  destruct ok.
  { injection Hr as <-. cbn. apply elapse_entropy. }
  destruct (NextBackoff retry) as [backoff retry1].
  destruct (backoff <? 1).
  { injection Hr as <-. cbn. apply elapse_entropy. }
  destruct (selectDone ctx) as [[e|] ctx1].
  { injection Hr as <-. cbn. now rewrite !elapse_entropy. }
  destruct (obtainLoop fuel deadline key value ttl ctx1 retry1 rc1
              (elapse backoff (elapse 0 w))) as [r'|] eqn:Hloop;
    [|discriminate].
  cbn in Hr. injection Hr as <-. cbn.
  apply IH in Hloop. now rewrite Hloop, !elapse_entropy.
Qed.

(** ** [randomToken] *)

Lemma New_wf (rc : R) : wfClient (New rc).
Proof. left. reflexivity. Qed.

(** What [randomToken] returns, by the next result of the random source. *)
Lemma randomToken_cases (c : Client R) (w : World) :
  wfClient c ->
  let '(token, err, c1, w1) := Client_randomToken c w in
  redisClient c1 = redisClient c /\
  List.length (tmp c1) = tokenBytes /\
  entropy w1 = tl (entropy w) /\
  match err with
  | Some e =>
      token = EmptyString /\
      (hd_error (entropy w) = Some (RandErr e) \/
       (entropy w = [] /\ e = ErrOther "EOF"))
  | None =>
      exists bytes,
        hd_error (entropy w) = Some (RandOK bytes) /\
        tmp c1 = map bytes (seq 0 tokenBytes) /\
        token = EncodeToString (tmp c1)
  end.
Proof.
  intros Hwf. unfold Client_randomToken.
  set (buf := if (List.length (tmp c) =? 0)%nat
              then repeat Byte.x00 tokenBytes else tmp c).
  assert (Hbuf : List.length buf = tokenBytes).
  { subst buf. destruct Hwf as [H0|H16]; rewrite ?H0, ?H16; cbn; auto. }
  pose proof (ReadFull_length buf w) as Hlen.
  pose proof (ReadFull_entropy buf w) as Hent.
  unfold ReadFull in *.
  destruct (entropy w) as [|[bytes|e] rest]; cbn in *.
  - repeat split; auto.
  - repeat split; auto; try lia.
    exists bytes. rewrite Hbuf. auto.
  - repeat split; auto.
Qed.

End Loop.

(** ** Reading a run event by event *)

Lemma cons_inv {A : Type} (a b : A) (l l' : list A) :
  a :: l = b :: l' -> a = b /\ l = l'.
Proof. intros Heq. now injection Heq. Qed.

(** Split a hypothesis [e1 :: ... :: evs = pre ++ x :: post] by the place
    of [x] among the events written out; [Hx] says which of them [x] is. *)
Ltac peel H :=
  repeat match type of H with
    | [] = ?pre ++ _ :: _ => destruct pre; discriminate H
    | _ :: _ = ?pre ++ _ :: _ =>
        let e := fresh "e" in
        destruct pre as [|e pre]; cbn [app] in H;
        apply cons_inv in H; destruct H as [Hx H];
        [ try discriminate Hx | subst e ]
    end.

Section Traces.

Variables (deadline : Z) (key value : string) (ttl : Duration).

Local Abbreviation trace := (loopTrace deadline key value ttl).

(** Every conditional set of a run carries the key, value and TTL of the
    call. *)
Lemma trace_setnx_args lo evs out k v t0 ok err :
  trace lo evs out ->
  In (EvSetNX k v t0 ok err) evs -> k = key /\ v = value /\ t0 = ttl.
Proof.
  induction 1 as [| | | | |lo t d evs out Hlo Hlt Hd1 Htr IH]; cbn; intros Hin;
    repeat (destruct Hin as [Hin|Hin]; try discriminate Hin;
            try (injection Hin as <- <- <- _ _; auto));
    try contradiction; auto.
Qed.

(** The loop draws no token. *)
Lemma trace_no_token lo evs out tok err :
  trace lo evs out -> ~ In (EvToken tok err) evs.
Proof.
  induction 1 as [| | | | |lo t d evs out Hlo Hlt Hd1 Htr IH]; cbn; intros Hin;
    repeat (destruct Hin as [Hin|Hin]; try discriminate Hin);
    try contradiction; auto.
Qed.

(** A conditional set directly follows a reading of the clock, and that
    reading is before the deadline. *)
Lemma trace_setnx_guarded lo evs out :
  trace lo evs out ->
  forall pre k v t ok err post,
    evs = pre ++ EvSetNX k v t ok err :: post ->
    exists pre' t', pre = pre' ++ [EvNow t'] /\ lo <= t' < deadline.
Proof.
  induction 1 as [| | | | |lo t d evs out Hlo Hlt Hd1 Htr IH];
    intros pre k v t' ok' err post Hs; peel Hs;
    try (exists [], t; split; [reflexivity | lia]).
  destruct (IH _ _ _ _ _ _ _ Hs) as (pre' & t1 & -> & Ht1).
  exists (EvNow t :: EvSetNX key value ttl false None :: EvBackoff d ::
          EvWait d None :: pre'), t1.
  split; [reflexivity | lia].
Qed.

(** A reading of the clock at or past the deadline ends the run with
    [ErrNotObtained]. *)
Lemma trace_deadline_final lo evs out :
  trace lo evs out ->
  forall pre t post,
    evs = pre ++ EvNow t :: post -> deadline <= t ->
    post = [] /\ out = Failed ErrNotObtained.
Proof.
  induction 1 as [| | | | |lo t d evs out Hlo Hlt Hd1 Htr IH];
    intros pre t' post Hs Ht; peel Hs;
    try (injection Hx as <-; lia); eauto.
Qed.

(** Readings of the clock do not go back. *)
Lemma trace_now_lower lo evs out t0 :
  trace lo evs out -> In (EvNow t0) evs -> lo <= t0.
Proof.
  induction 1 as [| | | | |lo t d evs out Hlo Hlt Hd1 Htr IH]; cbn; intros Hin;
    repeat (destruct Hin as [Hin|Hin]; try discriminate Hin;
            try (injection Hin as <-; lia));
    try contradiction.
  apply IH in Hin. lia.
Qed.

(** A wait the context ends is the last event, and its error the result. *)
Lemma trace_cancel_final lo evs out :
  trace lo evs out ->
  forall pre d e post,
    evs = pre ++ EvWait d (Some e) :: post ->
    post = [] /\ out = Failed e.
Proof.
  induction 1 as [| | | | |lo t d evs out Hlo Hlt Hd1 Htr IH];
    intros pre d' e' post Hs; peel Hs; eauto.
  inversion Hx; subst; auto.
Qed.

(** A backoff below one nanosecond is the last event. *)
Lemma trace_backoff_final lo evs out :
  trace lo evs out ->
  forall pre d post,
    evs = pre ++ EvBackoff d :: post -> d < 1 ->
    post = [] /\ out = Failed ErrNotObtained.
Proof.
  induction 1 as [| | | | |lo t d evs out Hlo Hlt Hd1 Htr IH];
    intros pre d' post Hs Hd; peel Hs;
    try (injection Hx as <-; try lia; auto); eauto.
Qed.

(** A failed round trip is the last event, and its error the result. *)
Lemma trace_error_final lo evs out :
  trace lo evs out ->
  forall pre k v t ok e post,
    evs = pre ++ EvSetNX k v t ok (Some e) :: post ->
    post = [] /\ out = Failed e.
Proof.
  induction 1 as [| | | | |lo t d evs out Hlo Hlt Hd1 Htr IH];
    intros pre k v t' ok' e' post Hs; peel Hs; eauto.
  inversion Hx; subst; auto.
Qed.

(** The strategy is asked only right after a set that lost to contention. *)
Lemma trace_backoff_after_contention lo evs out :
  trace lo evs out ->
  forall pre d post,
    evs = pre ++ EvBackoff d :: post ->
    exists pre', pre = pre' ++ [EvSetNX key value ttl false None].
Proof.
  induction 1 as [| | | | |lo t d evs out Hlo Hlt Hd1 Htr IH];
    intros pre d' post Hs; peel Hs;
    try (exists [EvNow t]; reflexivity).
  destruct (IH _ _ _ Hs) as (pre' & ->).
  exists (EvNow t :: EvSetNX key value ttl false None :: EvBackoff d ::
          EvWait d None :: pre').
  reflexivity.
Qed.

(** A wait happens only for a backoff of at least one nanosecond. *)
Lemma trace_wait_after_backoff lo evs out :
  trace lo evs out ->
  forall pre d done post,
    evs = pre ++ EvWait d done :: post ->
    1 <= d /\ exists pre', pre = pre' ++ [EvBackoff d].
Proof.
  induction 1 as [| | | | |lo t d evs out Hlo Hlt Hd1 Htr IH];
    intros pre d' done post Hs; peel Hs;
    try (injection Hx as <- _; split; [lia|];
         exists [EvNow t; EvSetNX key value ttl false None]; reflexivity).
  destruct (IH _ _ _ _ Hs) as (Hd & pre' & ->).
  split; [exact Hd|].
  exists (EvNow t :: EvSetNX key value ttl false None :: EvBackoff d ::
          EvWait d None :: pre').
  reflexivity.
Qed.

(** A run that ends with a lock ends with the set that took it. *)
Lemma trace_locked_value lo evs out l :
  trace lo evs out -> out = Locked l -> l = mkLock key value.
Proof.
  induction 1 as [| | | | |lo t d evs out Hlo Hlt Hd1 Htr IH];
    intros Hl; try discriminate Hl; auto.
  now injection Hl as <-.
Qed.

End Traces.

(** ** [Client.Obtain] *)

Section ObtainFacts.

Context {R : Type} `{RedisClient R}.

(** [Obtain] returns. *)
Lemma Client_Obtain_returns (c : Client R) key ttl opt w :
  exists r c', Client_Obtain c key ttl opt w = Some (r, c').
Proof.
  unfold Client_Obtain.
  destruct (Client_randomToken c w) as [[[token err] c1] w1].
  destruct err as [e|]; [eauto|].
  edestruct (obtainLoop_total
               (loopFuel (now w1 + ttl) (elapse 0 w1)) (now w1 + ttl) key
               (token ++ getMetadata opt) ttl (getContext opt)
               (getRetryStrategy opt) (redisClient c1) (elapse 0 w1))
    as [r Hr].
  - unfold loopFuel. lia.
  - rewrite Hr. eauto.
Qed.

(** The events of a call: the token, and if there is one, the reading of
    the clock the deadline is computed from, then a run of the loop. *)
Lemma Client_Obtain_shape (c : Client R) key ttl opt w r c' :
  Client_Obtain c key ttl opt w = Some (r, c') ->
  entropy (world_end r) = tl (entropy w) /\
  ((exists e, events r = [EvToken EmptyString (Some e)] /\
              outcome r = Failed e) \/
   (exists token t0 evs,
      events r = EvToken token None :: EvNow t0 :: evs /\
      token = fst (fst (fst (Client_randomToken c w))) /\
      tmp c' = tmp (snd (fst (Client_randomToken c w))) /\
      snd (fst (fst (Client_randomToken c w))) = None /\
      loopTrace (t0 + ttl) key (token ++ getMetadata opt) ttl t0 evs
                (outcome r))).
Proof.
  unfold Client_Obtain.
  assert (Hent : entropy (snd (Client_randomToken c w)) = tl (entropy w)).
  { unfold Client_randomToken.
    match goal with |- context [ReadFull ?b w] =>
      pose proof (ReadFull_entropy b w) as Hrf;
      destruct (ReadFull b w) as [[buf' err] w'] end.
    destruct err; exact Hrf. }
  assert (Htok : forall e,
             snd (fst (fst (Client_randomToken c w))) = Some e ->
             fst (fst (fst (Client_randomToken c w))) = EmptyString).
  { unfold Client_randomToken.
    match goal with |- context [ReadFull ?b w] =>
      destruct (ReadFull b w) as [[buf' err] w'] end.
    destruct err; cbn; intros e' He; [reflexivity | discriminate]. }
  destruct (Client_randomToken c w) as [[[token err] c1] w1].
  cbn [fst snd] in *.
  destruct err as [e|].
  - intros Hr. injection Hr as <- <-. cbn. split; [exact Hent|].
    left. exists e. rewrite (Htok e eq_refl). auto.
  - destruct (obtainLoop _ _ _ _ _ _ _ _ _) as [r0|] eqn:Hloop;
      [|discriminate].
    intros Hr. injection Hr as <- <-. cbn.
    split.
    + rewrite (obtainLoop_entropy _ _ _ _ _ _ _ _ _ _ Hloop).
      now rewrite elapse_entropy.
    + right. exists token, (now w1), (events r0).
      repeat split; auto.
      apply obtainLoop_trace in Hloop.
      eapply loopTrace_weaken; [|exact Hloop].
      pose proof (elapse_now 0 w1). lia.
Qed.

(** The buffer invariant is kept by [Obtain]. *)
Lemma Client_Obtain_wf (c : Client R) key ttl opt w r c' :
  wfClient c -> Client_Obtain c key ttl opt w = Some (r, c') -> wfClient c'.
Proof.
  intros Hwf Hr. pose proof (randomToken_cases c w Hwf) as Hrt.
  unfold Client_Obtain in Hr.
  destruct (Client_randomToken c w) as [[[token err] c1] w1].
  destruct Hrt as (_ & Hlen & _).
  destruct err as [e|].
  - injection Hr as _ <-. now right.
  - destruct (obtainLoop _ _ _ _ _ _ _ _ _) as [r0|]; [|discriminate].
    injection Hr as _ <-. now right.
Qed.

End ObtainFacts.

(** ** The runs of [Obtain] by their inputs *)

Section LoopInputs.

Context {R : Type} `{RedisClient R}.

(** Wait number [k] of the loop sees entry [k] of the context. *)
Lemma obtainLoop_waits fuel deadline key value ttl ctx retry (rc : R) w r :
  obtainLoop fuel deadline key value ttl ctx retry rc w = Some r ->
  forall pre d done post,
    events r = pre ++ EvWait d done :: post ->
    done = nth (waits pre) ctx None.
Proof.
  revert ctx retry rc w r.
  induction fuel as [|fuel IH]; intros ctx retry rc w r Hr pre d0 done post Hs;
    [discriminate|].
  cbn [obtainLoop] in Hr.
  destruct (now w <? deadline).
  2: { injection Hr as <-. cbn in Hs. peel Hs. }
  destruct (Client_obtain rc key value ttl) as [[ok err] rc1].
  destruct err as [e|].
  { injection Hr as <-. cbn in Hs. peel Hs. }
  destruct ok.
  { injection Hr as <-. cbn in Hs. peel Hs. }
  destruct (NextBackoff retry) as [backoff retry1].
  destruct (backoff <? 1).
  { injection Hr as <-. cbn in Hs. peel Hs. }
  destruct (selectDone ctx) as [done1 ctx1] eqn:Hsel.
  assert (Hctx : done1 = nth 0 ctx None /\
                 forall k, nth k ctx1 None = nth (S k) ctx None).
  { destruct ctx as [|x rest]; cbn in Hsel; injection Hsel as <- <-.
    - split; [reflexivity|]. intros [|k]; reflexivity.
    - split; reflexivity. }
  destruct Hctx as [Hhd Htl].
  destruct done1 as [e|].
  { injection Hr as <-. cbn in Hs. peel Hs.
    injection Hx as _ <-. exact Hhd. }
  destruct (obtainLoop fuel deadline key value ttl ctx1 retry1 rc1
              (elapse backoff (elapse 0 w))) as [r'|] eqn:Hloop;
    [|discriminate].
  cbn in Hr. injection Hr as <-. cbn in Hs. peel Hs.
  - injection Hx as _ <-. exact Hhd.
  - cbn [waits]. rewrite <- Htl. exact (IH _ _ _ _ _ Hloop _ _ _ _ Hs).
Qed.

(** Conditional set number [j] of the loop is what the binding answers
    after [j] earlier sets, and the loop leaves the binding as its sets
    left it. *)
Lemma obtainLoop_store fuel deadline key value ttl ctx retry (rc : R) w r :
  obtainLoop fuel deadline key value ttl ctx retry rc w = Some r ->
  redis_end r = storeAfter (attempts (events r)) rc key value ttl /\
  forall pre k v t ok err post,
    events r = pre ++ EvSetNX k v t ok err :: post ->
    SetNX (storeAfter (attempts pre) rc key value ttl) key value ttl
    = (ok, err, storeAfter (S (attempts pre)) rc key value ttl).
Proof.
  revert ctx retry rc w r.
  induction fuel as [|fuel IH]; intros ctx retry rc w r Hr; [discriminate|].
  cbn [obtainLoop] in Hr.
  destruct (now w <? deadline).
  2: { injection Hr as <-. cbn. split; [reflexivity|].
       intros pre k v t ok err post Hs. peel Hs. }
  unfold Client_obtain in Hr.
  destruct (SetNX rc key value ttl) as [[ok err] rc1] eqn:Hset.
  assert (Hfirst : forall ok' err' k v t,
             EvSetNX key value ttl ok err = EvSetNX k v t ok' err' ->
             SetNX rc key value ttl = (ok', err', rc1)).
  { intros ok' err' k v t Heq. injection Heq as _ _ _ <- <-. exact Hset. }
  destruct err as [e|].
  { injection Hr as <-. cbn. rewrite Hset. split; [reflexivity|].
    intros pre k v t ok' err' post Hs. peel Hs.
    cbn. exact (Hfirst _ _ _ _ _ Hx). }
  destruct ok.
  { injection Hr as <-. cbn. rewrite Hset. split; [reflexivity|].
    intros pre k v t ok' err' post Hs. peel Hs.
    cbn. exact (Hfirst _ _ _ _ _ Hx). }
  destruct (NextBackoff retry) as [backoff retry1].
  destruct (backoff <? 1).
  { injection Hr as <-. cbn. rewrite Hset. split; [reflexivity|].
    intros pre k v t ok' err' post Hs. peel Hs.
    cbn. exact (Hfirst _ _ _ _ _ Hx). }
  destruct (selectDone ctx) as [[e|] ctx1].
  { injection Hr as <-. cbn. rewrite Hset. split; [reflexivity|].
    intros pre k v t ok' err' post Hs. peel Hs.
    cbn. exact (Hfirst _ _ _ _ _ Hx). }
  destruct (obtainLoop fuel deadline key value ttl ctx1 retry1 rc1
              (elapse backoff (elapse 0 w))) as [r'|] eqn:Hloop;
    [|discriminate].
  cbn in Hr. injection Hr as <-.
  destruct (IH _ _ _ _ _ Hloop) as [Hend Hsets].
  cbn [events before app attempts redis_end storeAfter].
  rewrite Hset. cbn [snd]. split; [exact Hend|].
  intros pre k v t ok' err' post Hs. peel Hs.
  - cbn. exact (Hfirst _ _ _ _ _ Hx).
  - cbn [attempts storeAfter]. rewrite Hset. cbn [snd].
    exact (Hsets _ _ _ _ _ _ _ Hs).
Qed.

End LoopInputs.

Lemma attempts_app (a b : list Event) :
  attempts (a ++ b) = (attempts a + attempts b)%nat.
Proof.
  induction a as [|ev a IH]; [reflexivity|].
  destruct ev; cbn; rewrite IH; reflexivity.
Qed.

Section ObtainInputs.

Context {R : Type} `{RedisClient R}.

(** A call is the draw of the token and, when that succeeds, one run of
    the loop with the context and the strategy of the options. *)
Lemma Client_Obtain_loop (c : Client R) key ttl opt w r c' :
  Client_Obtain c key ttl opt w = Some (r, c') ->
  (exists token e c1 w1,
      Client_randomToken c w = (token, Some e, c1, w1) /\
      r = mkRun (Failed e) (getRetryStrategy opt) (redisClient c1) w1
                [EvToken token (Some e)]) \/
  (exists token c1 w1 r0,
      Client_randomToken c w = (token, None, c1, w1) /\
      obtainLoop (loopFuel (now w1 + ttl) (elapse 0 w1)) (now w1 + ttl) key
                 (token ++ getMetadata opt) ttl (getContext opt)
                 (getRetryStrategy opt) (redisClient c1) (elapse 0 w1)
        = Some r0 /\
      r = before [EvToken token None; EvNow (now w1)] r0).
Proof.
  unfold Client_Obtain.
  destruct (Client_randomToken c w) as [[[token err] c1] w1].
  destruct err as [e|].
  - intros Hr. injection Hr as <- <-. left. exists token, e, c1, w1. auto.
  - destruct (obtainLoop _ _ _ _ _ _ _ _ _) as [r0|] eqn:Hloop;
      [|discriminate].
    intros Hr. injection Hr as <- <-. right. exists token, c1, w1, r0. auto.
Qed.

Lemma randomToken_keeps_store (c : Client R) w :
  redisClient (snd (fst (Client_randomToken c w))) = redisClient c.
Proof.
  unfold Client_randomToken.
  destruct (ReadFull _ w) as [[buf' err] w']. destruct err; reflexivity.
Qed.

(** What [randomToken] returns when the random source fails. *)
Lemma randomToken_source_error (c : Client R) w e :
  hd_error (entropy w) = Some (RandErr e) ->
  fst (fst (Client_randomToken c w)) = (EmptyString, Some e).
Proof.
  intros Hhd. unfold Client_randomToken, ReadFull.
  destruct (entropy w) as [|[bytes|e'] rest]; try discriminate Hhd.
  injection Hhd as ->. reflexivity.
Qed.

(** The waits and the conditional sets of a call, by the context of the
    options and by the binding of the client. *)
Lemma Client_Obtain_inputs (c : Client R) key ttl opt w r c' :
  Client_Obtain c key ttl opt w = Some (r, c') ->
  (forall pre d done post,
      events r = pre ++ EvWait d done :: post ->
      done = nth (waits pre) (getContext opt) None) /\
  (forall pre k v t ok err post,
      events r = pre ++ EvSetNX k v t ok err :: post ->
      SetNX (storeAfter (attempts pre) (redisClient c) k v t) k v t
      = (ok, err, storeAfter (S (attempts pre)) (redisClient c) k v t)) /\
  (forall k v t ok err,
      In (EvSetNX k v t ok err) (events r) ->
      redis_end r = storeAfter (attempts (events r)) (redisClient c) k v t).
Proof.
  intros Hr. pose proof (randomToken_keeps_store c w) as Hkeep.
  destruct (Client_Obtain_shape _ _ _ _ _ _ _ Hr) as [_ Hshape].
  destruct (Client_Obtain_loop _ _ _ _ _ _ _ Hr)
    as [(token & e & c1 & w1 & Htok & ->)
       | (token & c1 & w1 & r0 & Htok & Hloop & ->)];
    rewrite Htok in Hkeep; cbn [fst snd] in Hkeep.
  - cbn. repeat split.
    + intros pre d done post Hs. peel Hs.
    + intros pre k v t ok err post Hs. peel Hs.
    + intros k v t ok err [Hin|[]]. discriminate Hin.
  - rewrite Hkeep in Hloop.
    pose proof (obtainLoop_waits _ _ _ _ _ _ _ _ _ _ Hloop) as Hw.
    destruct (obtainLoop_store _ _ _ _ _ _ _ _ _ _ Hloop) as [Hend Hsets].
    pose proof (obtainLoop_trace _ _ _ _ _ _ _ _ _ _ Hloop) as Htr.
    cbn [events before app redis_end]. repeat split.
    + intros pre d done post Hs. peel Hs.
      cbn [waits]. exact (Hw _ _ _ _ Hs).
    + intros pre k v t ok err post Hs. peel Hs.
      assert (Hin : In (EvSetNX k v t ok err) (events r0))
        by (rewrite Hs; apply in_or_app; right; left; reflexivity).
      destruct (trace_setnx_args _ _ _ _ _ _ _ _ _ _ _ _ Htr Hin)
        as (-> & -> & ->).
      cbn [attempts]. exact (Hsets _ _ _ _ _ _ _ Hs).
    + intros k v t ok err [Hin|[Hin|Hin]]; try discriminate.
      destruct (trace_setnx_args _ _ _ _ _ _ _ _ _ _ _ _ Htr Hin)
        as (-> & -> & ->).
      cbn [attempts]. exact Hend.
Qed.

End ObtainInputs.

(** ** The claims about [Client.Obtain] *)

Section ObtainClaims.

Context {R : Type} `{RedisClient R}.

(** C1, as the code has it: a call to [Client.Obtain] draws exactly one
    random token, before the loop; every conditional set of the call, the
    first and each retry, carries that same token followed by the metadata,
    and no attempt reads the random source again. *)
Theorem Obtain_one_token_per_call (c : Client R) key ttl opt w :
  exists r c', Client_Obtain c key ttl opt w = Some (r, c') /\
    entropy (world_end r) = tl (entropy w) /\
    exists token err rest,
      events r = EvToken token err :: rest /\
      (forall token' err', ~ In (EvToken token' err') rest) /\
      (forall k v t ok e,
          In (EvSetNX k v t ok e) rest ->
          v = (token ++ getMetadata opt)%string).
Proof.
  destruct (Client_Obtain_returns c key ttl opt w) as (r & c' & Hr).
  exists r, c'. split; [exact Hr|].
  destruct (Client_Obtain_shape _ _ _ _ _ _ _ Hr) as [Hent Hshape].
  split; [exact Hent|].
  destruct Hshape
    as [(e & Hev & _) | (token & t0 & evs & Hev & _ & _ & _ & Htr)].
  - exists EmptyString, (Some e), []. rewrite Hev.
    repeat split; intros; cbn; auto.
    contradiction.
  - exists token, None, (EvNow t0 :: evs). rewrite Hev.
    split; [reflexivity|]. split.
    + intros token' err' [Hin|Hin]; [discriminate|].
      exact (trace_no_token _ _ _ _ _ _ _ _ _ Htr Hin).
    + intros k v t ok e [Hin|Hin]; [discriminate|].
      now destruct (trace_setnx_args _ _ _ _ _ _ _ _ _ _ _ _ Htr Hin)
        as (_ & -> & _).
Qed.

(** C2: every conditional set directly follows a reading of the clock that
    is strictly before the deadline, the reading at loop start plus [ttl];
    a reading of the loop condition at or past the deadline ends the call
    with [ErrNotObtained] and nothing after it; with [ttl <= 0] the call
    makes no conditional set at all. *)
Theorem Obtain_attempts_before_deadline (c : Client R) key ttl opt w :
  exists r c', Client_Obtain c key ttl opt w = Some (r, c') /\
    (ttl <= 0 -> forall k v t ok err, ~ In (EvSetNX k v t ok err) (events r)) /\
    ((exists e, events r = [EvToken EmptyString (Some e)]) \/
     (exists token t0 evs,
        events r = EvToken token None :: EvNow t0 :: evs /\
        (forall pre k v t ok err post,
            evs = pre ++ EvSetNX k v t ok err :: post ->
            exists pre' t', pre = pre' ++ [EvNow t'] /\ t' < t0 + ttl) /\
        (forall pre t post,
            evs = pre ++ EvNow t :: post -> t0 + ttl <= t ->
            post = [] /\ outcome r = Failed ErrNotObtained) /\
        (ttl <= 0 ->
         exists t, evs = [EvNow t] /\ outcome r = Failed ErrNotObtained))).
Proof.
  destruct (Client_Obtain_returns c key ttl opt w) as (r & c' & Hr).
  exists r, c'. split; [exact Hr|].
  destruct (Client_Obtain_shape _ _ _ _ _ _ _ Hr) as [_ Hshape].
  destruct Hshape
    as [(e & Hev & _) | (token & t0 & evs & Hev & _ & _ & _ & Htr)].
  - split.
    + intros _ k v t ok err. rewrite Hev. cbn. intros [Hin|[]]. discriminate.
    + left. eauto.
  - assert (Hnone : ttl <= 0 ->
              exists t, evs = [EvNow t] /\ outcome r = Failed ErrNotObtained).
    { intros Httl. inversion Htr; subst; try lia. eauto. }
    split.
    + intros Httl k v t ok err. rewrite Hev.
      destruct (Hnone Httl) as (t1 & -> & _). cbn.
      intros [Hin|[Hin|[Hin|[]]]]; discriminate.
    + right. exists token, t0, evs. split; [exact Hev|].
      split; [|split; [|exact Hnone]].
      * intros pre k v t ok err post Hs.
        destruct (trace_setnx_guarded _ _ _ _ _ _ _ Htr _ _ _ _ _ _ _ Hs)
          as (pre' & t' & Hpre & Ht').
        exists pre', t'. split; [exact Hpre | lia].
      * intros pre t post Hs Ht.
        exact (trace_deadline_final _ _ _ _ _ _ _ Htr _ _ _ Hs Ht).
Qed.

(** C5: wait number [k] of a call sees entry [k] of the context of the
    options (the background context when there is none); when that entry
    says the context is done, with [ctx.Err()] = [e], the wait is the last
    thing the call does, so no conditional set follows, and the call
    returns [e], not [ErrNotObtained]. *)
Theorem Obtain_cancelled_returns_ctx_err (c : Client R) key ttl opt w :
  exists r c', Client_Obtain c key ttl opt w = Some (r, c') /\
    forall pre d done post,
      events r = pre ++ EvWait d done :: post ->
      done = nth (waits pre) (getContext opt) None /\
      forall e, done = Some e ->
        post = [] /\ outcome r = Failed e /\
        1 <= d /\ exists pre', pre = pre' ++ [EvBackoff d].
Proof.
  destruct (Client_Obtain_returns c key ttl opt w) as (r & c' & Hr).
  exists r, c'. split; [exact Hr|].
  destruct (Client_Obtain_inputs _ _ _ _ _ _ _ Hr) as (Hctx & _ & _).
  destruct (Client_Obtain_shape _ _ _ _ _ _ _ Hr) as [_ Hshape].
  intros pre d done post Hs. split; [exact (Hctx _ _ _ _ Hs)|].
  intros e ->.
  destruct Hshape
    as [(e0 & Hev & _) | (token & t0 & evs & Hev & _ & _ & _ & Htr)];
    rewrite Hev in Hs; peel Hs.
  destruct (trace_cancel_final _ _ _ _ _ _ _ Htr _ _ _ _ Hs) as [Hp Ho].
  destruct (trace_wait_after_backoff _ _ _ _ _ _ _ Htr _ _ _ _ Hs)
    as (Hd & pre' & ->).
  repeat split; auto.
  exists (EvToken token None :: EvNow t0 :: pre'). reflexivity.
Qed.

(** C6: when a conditional set has lost to contention and the strategy
    then returns a non-positive backoff, the call stops there: nothing
    follows, so there is no further conditional set, and the call returns
    [ErrNotObtained]. *)
Theorem Obtain_stops_on_nonpositive_backoff (c : Client R) key ttl opt w :
  exists r c', Client_Obtain c key ttl opt w = Some (r, c') /\
    forall pre d post,
      events r = pre ++ EvBackoff d :: post -> d <= 0 ->
      post = [] /\ outcome r = Failed ErrNotObtained /\
      exists pre' k v t, pre = pre' ++ [EvSetNX k v t false None].
Proof.
  destruct (Client_Obtain_returns c key ttl opt w) as (r & c' & Hr).
  exists r, c'. split; [exact Hr|].
  destruct (Client_Obtain_shape _ _ _ _ _ _ _ Hr) as [_ Hshape].
  intros pre d post Hs Hd.
  destruct Hshape
    as [(e0 & Hev & _) | (token & t0 & evs & Hev & _ & _ & _ & Htr)];
    rewrite Hev in Hs; peel Hs.
  destruct (trace_backoff_final _ _ _ _ _ _ _ Htr _ _ _ Hs) as [Hp Ho];
    [lia|].
  destruct (trace_backoff_after_contention _ _ _ _ _ _ _ Htr _ _ _ Hs)
    as (pre' & ->).
  repeat split; auto.
  exists (EvToken token None :: EvNow t0 :: pre'), key,
         (token ++ getMetadata opt)%string, ttl.
  reflexivity.
Qed.

(** C9: when the random source fails with [e], the call returns [e] with
    the binding untouched; every conditional set of the call is what
    [SetNX] of the binding answers after the earlier sets, and when that
    answer carries an error [e], nothing follows it, neither a backoff nor
    another set, and the call returns [e] as it is; the strategy is asked
    for a backoff only right after a conditional set that returned false
    without an error. *)
Theorem Obtain_store_error_not_retried (c : Client R) key ttl opt w :
  exists r c', Client_Obtain c key ttl opt w = Some (r, c') /\
    (forall e, hd_error (entropy w) = Some (RandErr e) ->
        events r = [EvToken EmptyString (Some e)] /\
        outcome r = Failed e /\ redis_end r = redisClient c) /\
    (forall token e post,
        events r = EvToken token (Some e) :: post ->
        post = [] /\ outcome r = Failed e) /\
    (forall pre k v t ok err post,
        events r = pre ++ EvSetNX k v t ok err :: post ->
        SetNX (storeAfter (attempts pre) (redisClient c) k v t) k v t
        = (ok, err, storeAfter (S (attempts pre)) (redisClient c) k v t) /\
        forall e, err = Some e -> post = [] /\ outcome r = Failed e) /\
    (forall pre d post,
        events r = pre ++ EvBackoff d :: post ->
        exists pre' k v t, pre = pre' ++ [EvSetNX k v t false None]).
Proof.
  destruct (Client_Obtain_returns c key ttl opt w) as (r & c' & Hr).
  exists r, c'. split; [exact Hr|].
  destruct (Client_Obtain_inputs _ _ _ _ _ _ _ Hr) as (_ & Hsets & _).
  destruct (Client_Obtain_shape _ _ _ _ _ _ _ Hr) as [_ Hshape].
  split.
  { intros e Hhd.
    pose proof (randomToken_source_error c w e Hhd) as Hfail.
    pose proof (randomToken_keeps_store c w) as Hkeep.
    destruct (Client_Obtain_loop _ _ _ _ _ _ _ Hr)
      as [(token & e1 & c1 & w1 & Htok & ->)
         | (token & c1 & w1 & r0 & Htok & _ & _)];
      rewrite Htok in Hfail, Hkeep; cbn [fst snd] in Hfail, Hkeep;
      [|discriminate Hfail].
    injection Hfail as -> ->. cbn. auto. }
  destruct Hshape
    as [(e0 & Hev & Ho) | (token & t0 & evs & Hev & _ & _ & _ & Htr)].
  - split; [|split].
    + intros token e post Hs. rewrite Hev in Hs.
      injection Hs as _ <- <-. auto.
    + intros pre k v t ok err post Hs. split; [exact (Hsets _ _ _ _ _ _ _ Hs)|].
      rewrite Hev in Hs. peel Hs.
    + intros pre d post Hs. rewrite Hev in Hs. peel Hs.
  - split; [|split].
    + intros token' e post Hs. rewrite Hev in Hs. discriminate Hs.
    + intros pre k v t ok err post Hs. split; [exact (Hsets _ _ _ _ _ _ _ Hs)|].
      intros e ->. rewrite Hev in Hs. peel Hs.
      exact (trace_error_final _ _ _ _ _ _ _ Htr _ _ _ _ _ _ _ Hs).
    + intros pre d post Hs. rewrite Hev in Hs. peel Hs.
      destruct (trace_backoff_after_contention _ _ _ _ _ _ _ Htr _ _ _ Hs)
        as (pre' & ->).
      exists (EvToken token None :: EvNow t0 :: pre'), key,
             (token ++ getMetadata opt)%string, ttl.
      reflexivity.
Qed.

End ObtainClaims.

(** C1 as stated fails: with the key taken and three retries allowed, two
    successive conditional sets of one call carry the same value, and of
    the two fills the random source had ready one is still unread after
    four attempts. *)
Lemma Obtain_retries_reuse_token :
  exists r c' pre v post,
    Obtain busyRedis "k" (100 * Millisecond) retryThrice quietWorld
      = Some (r, c') /\
    events r =
      pre ++ EvSetNX "k" v (100 * Millisecond) false None ::
             EvBackoff (10 * Millisecond) ::
             EvWait (10 * Millisecond) None ::
             EvNow (10 * Millisecond) ::
             EvSetNX "k" v (100 * Millisecond) false None :: post /\
    List.length (entropy quietWorld) = 2%nat /\
    List.length (entropy (world_end r)) = 1%nat.
Proof.
  destruct (Obtain busyRedis "k" (100 * Millisecond) retryThrice quietWorld)
    as [[r c']|] eqn:Hr; [|vm_compute in Hr; discriminate Hr].
  exists r, c'. vm_compute in Hr. injection Hr as <- <-.
  exists [EvToken "AAAAAAAAAAAAAAAAAAAAAA" None; EvNow 0; EvNow 0].
  eexists. eexists. repeat split.
Qed.

Section LockClaims.

Context {R : Type} `{RedisClient R}.

(** C7, as the code has it: [Lock.TTL] returns the milliseconds the store
    reports as a duration when they are positive and at most 9223372036854,
    the most an [int64] of nanoseconds holds; a zero duration and no error
    for every non-positive report; and the error of the store, with a zero
    duration, when the round trip fails. *)
Theorem Lock_TTL_by_store_result (l : Lock) (c : Client R) res err rc :
  TTL (redisClient c) (key l) (value l) = (res, err, rc) ->
  let '(d, err', _) := Lock_TTL l c in
  (forall e, err = Some e -> d = 0 /\ err' = Some e) /\
  (err = None -> 0 < res <= 9223372036854 ->
   err' = None /\ d = res * Millisecond) /\
  (err = None -> res <= 0 -> err' = None /\ d = 0).
Proof.
  intros Hcall. unfold Lock_TTL. rewrite Hcall.
  destruct err as [e|].
  - repeat split; intros; try discriminate; congruence.
  - destruct (Z.gtb_spec res 0) as [Hpos|Hnon].
    + repeat split; intros; try discriminate; try lia.
      unfold mul_int. apply wrap_int_id.
      unfold in_int, int_min, int_max, Millisecond in *. lia.
    + repeat split; intros; try discriminate; try lia.
Qed.

End LockClaims.

(** C8: for a value made of a 22-character token followed by a metadata
    string, [Token()] is the token, [Metadata()] is the metadata, and the
    two put together give the value back. *)
Theorem Lock_Token_Metadata_roundtrip (k token metadata : string) :
  String.length token = 22%nat ->
  let l := mkLock k (token ++ metadata) in
  Lock_Token l = Some token /\
  Lock_Metadata l = Some metadata /\
  (forall t m, Lock_Token l = Some t -> Lock_Metadata l = Some m ->
               (t ++ m)%string = value l).
Proof.
  intros Hlen l. subst l. unfold Lock_Token, Lock_Metadata. cbn [value].
  rewrite <- Hlen. rewrite sliceTo_append, sliceFrom_append.
  repeat split. intros t m Ht Hm. congruence.
Qed.

Lemma Lock_Token_Metadata_roundtrip_witness :
  Lock_Token (mkLock "k" "AQID-vv8_f7_ABAgMEBQYAmeta")
    = Some "AQID-vv8_f7_ABAgMEBQYA"%string /\
  Lock_Metadata (mkLock "k" "AQID-vv8_f7_ABAgMEBQYAmeta")
    = Some "meta"%string.
Proof.
  destruct (Lock_Token_Metadata_roundtrip "k" "AQID-vv8_f7_ABAgMEBQYA" "meta"
              eq_refl) as (Ht & Hm & _).
  split; [exact Ht | exact Hm].
Defined.

Lemma Lock_TTL_by_store_result_witness :
  fst (Lock_TTL (mkLock "k" "other") (New busyRedis))
    = (50 * Millisecond, None) /\
  fst (Lock_TTL (mkLock "k" "mine") (New busyRedis)) = (0, None) /\
  fst (Lock_TTL (mkLock "k" "mine") (New brokenRedis))
    = (0, Some (ErrOther "connection refused")).
Proof.
  pose proof (Lock_TTL_by_store_result (mkLock "k" "other") (New busyRedis)
                50 None busyRedis eq_refl) as Hheld.
  pose proof (Lock_TTL_by_store_result (mkLock "k" "mine") (New busyRedis)
                (-3) None busyRedis eq_refl) as Hlost.
  pose proof (Lock_TTL_by_store_result (mkLock "k" "mine") (New brokenRedis)
                0 (Some (ErrOther "connection refused"))
                (mkMemRedis [] []) eq_refl) as Hfail.
  destruct (Lock_TTL (mkLock "k" "other") (New busyRedis)) as [[d1 e1] c1].
  destruct (Lock_TTL (mkLock "k" "mine") (New busyRedis)) as [[d2 e2] c2].
  destruct (Lock_TTL (mkLock "k" "mine") (New brokenRedis)) as [[d3 e3] c3].
  destruct Hheld as (_ & Hpos & _).
  destruct (Hpos eq_refl ltac:(lia)) as (-> & ->).
  destruct Hlost as (_ & _ & Hnon).
  destruct (Hnon eq_refl ltac:(lia)) as (-> & ->).
  destruct Hfail as (Herr & _).
  destruct (Herr _ eq_refl) as (-> & ->).
  repeat split.
Defined.

(** C7 as stated fails for a positive report whose nanoseconds do not fit
    an [int64]: the store reports 9223372036855 ms left, and [TTL()]
    returns a negative duration. *)
Lemma Lock_TTL_overflows :
  TTL farRedis "k" "mine" = (9223372036855, None, farRedis) /\
  fst (Lock_TTL (mkLock "k" "mine") (New farRedis))
    = (-9223372036854551616, None) /\
  9223372036855 * Millisecond = 9223372036855000000.
Proof. repeat split. Qed.

Section TokenClaims.

Context {R : Type} `{RedisClient R}.

(** C10: the value of a lock that [Client.Obtain] returns is the unpadded
    URL-safe base64 text of the 16 bytes the random source gave, which is
    22 characters long, followed by the metadata; so the value has at least
    22 characters and neither [Token()] nor [Metadata()] slices out of
    range. *)
Theorem Obtain_lock_value_has_token (c : Client R) key ttl opt w r c' l :
  wfClient c ->
  Client_Obtain c key ttl opt w = Some (r, c') ->
  outcome r = Locked l ->
  exists bytes,
    hd_error (entropy w) = Some (RandOK bytes) /\
    let raw := map bytes (seq 0 16) in
    List.length raw = 16%nat /\
    String.length (EncodeToString raw) = 22%nat /\
    value l = (EncodeToString raw ++ getMetadata opt)%string /\
    (22 <= String.length (value l))%nat /\
    substring 0 22 (value l) = EncodeToString raw /\
    Lock_Token l = Some (EncodeToString raw) /\
    Lock_Metadata l = Some (getMetadata opt).
Proof.
  intros Hwf Hr Hlock.
  pose proof (randomToken_cases c w Hwf) as Hrt.
  destruct (Client_Obtain_shape _ _ _ _ _ _ _ Hr) as [_ Hshape].
  destruct Hshape
    as [(e & _ & Ho) | (token & t0 & evs & _ & Htok & _ & Herr & Htr)].
  { rewrite Ho in Hlock. discriminate Hlock. }
  destruct (Client_randomToken c w) as [[[token1 err] c1] w1].
  cbn [fst snd] in Htok, Herr. subst token1 err.
  destruct Hrt as (_ & _ & _ & bytes & Hhd & Htmp & Henc).
  rewrite Htmp in Henc.
  pose proof (trace_locked_value _ _ _ _ _ _ _ _ Htr Hlock) as Hl.
  exists bytes. split; [exact Hhd|].
  change (map bytes (seq 0 16)) with (map bytes (seq 0 tokenBytes)).
  assert (Hraw : List.length (map bytes (seq 0 tokenBytes)) = tokenBytes)
    by now rewrite length_map, length_seq.
  pose proof (token_length _ Hraw) as H22.
  cbv zeta. rewrite <- Henc in *.
  assert (Hval : value l = (token ++ getMetadata opt)%string)
    by now rewrite Hl.
  unfold Lock_Token, Lock_Metadata. rewrite Hval, <- H22.
  rewrite sliceTo_append, sliceFrom_append, substring_append_l,
    length_append.
  repeat split; auto. lia.
Qed.

End TokenClaims.

Lemma Obtain_lock_value_has_token_witness :
  exists r c' l,
    Obtain emptyRedis "k" (100 * Millisecond) retryThrice quietWorld
      = Some (r, c') /\
    outcome r = Locked l /\
    value l = "AAAAAAAAAAAAAAAAAAAAAAmeta"%string /\
    Lock_Token l = Some "AAAAAAAAAAAAAAAAAAAAAA"%string /\
    Lock_Metadata l = Some "meta"%string.
Proof.
  destruct (Obtain emptyRedis "k" (100 * Millisecond) retryThrice quietWorld)
    as [[r c']|] eqn:Hr; [|vm_compute in Hr; discriminate Hr].
  pose proof Hr as Hrun. vm_compute in Hrun. injection Hrun as Hr' Hc'.
  assert (Hout : outcome r
                 = Locked (mkLock "k" "AAAAAAAAAAAAAAAAAAAAAAmeta"))
    by (rewrite <- Hr'; reflexivity).
  destruct (Obtain_lock_value_has_token
              (New emptyRedis) "k" (100 * Millisecond) retryThrice quietWorld
              r c' _ (New_wf emptyRedis) Hr Hout)
    as (bytes & Hhd & _ & _ & Hval & _ & _ & Htok & Hmeta).
  injection Hhd as <-.
  exists r, c', (mkLock "k" "AAAAAAAAAAAAAAAAAAAAAAmeta").
  repeat split; auto.
Defined.

(** ** The claims on concrete runs *)

(** A lease of 25 ms retried every 10 ms: sets at 0, 10 and 20 ms, then the
    reading at 30 ms ends the call.  A lease of zero: no set. *)
Lemma Obtain_attempts_before_deadline_witness :
  (exists r c',
      Obtain busyRedis "k" (25 * Millisecond) retryEvery10ms quietWorld
        = Some (r, c') /\
      outcome r = Failed ErrNotObtained /\
      last (events r) (EvNow 0) = EvNow (30 * Millisecond)) /\
  (exists r c',
      Obtain emptyRedis "k" 0 None quietWorld = Some (r, c') /\
      outcome r = Failed ErrNotObtained /\
      forall k v t ok err, ~ In (EvSetNX k v t ok err) (events r)).
Proof.
  split.
  - destruct (Obtain_attempts_before_deadline
                (New busyRedis) "k" (25 * Millisecond) retryEvery10ms
                quietWorld) as (r & c' & Hr & _ & Hrun).
    exists r, c'. split; [exact Hr|].
    vm_compute in Hr. injection Hr as <- <-.
    destruct Hrun as [(e & He) | (token & t0 & evs & Hev & _ & Hpast & _)];
      [discriminate He|].
    cbn [events] in Hev. injection Hev as _ <- <-.
    split; [|reflexivity].
    refine (proj2 (Hpast
      [EvNow 0; EvSetNX "k" _ _ false None; EvBackoff _; EvWait _ None;
       EvNow _; EvSetNX "k" _ _ false None; EvBackoff _; EvWait _ None;
       EvNow _; EvSetNX "k" _ _ false None; EvBackoff _; EvWait _ None]
      (30 * Millisecond) [] eq_refl _)).
    vm_compute. discriminate.
  - destruct (Obtain_attempts_before_deadline
                (New emptyRedis) "k" 0 None quietWorld)
      as (r & c' & Hr & Hnone & Hrun).
    exists r, c'. split; [exact Hr|].
    split; [|apply Hnone; lia].
    vm_compute in Hr. injection Hr as <- <-.
    destruct Hrun as [(e & He) | (token & t0 & evs & Hev & _ & _ & Hzero)];
      [discriminate He|].
    destruct Hzero as (t & _ & Hout); [lia | exact Hout].
Defined.

(** The context is done, cancelled, during the second wait: the first wait
    runs to its end, the second is the last event, and the call returns
    [context.Canceled]. *)
Lemma Obtain_cancelled_returns_ctx_err_witness :
  exists r c' v,
    Obtain busyRedis "k" (100 * Millisecond) cancelledLater quietWorld
      = Some (r, c') /\
    getContext cancelledLater = [None; Some Canceled] /\
    events r =
      [EvToken v None; EvNow 0;
       EvNow 0; EvSetNX "k" v (100 * Millisecond) false None;
       EvBackoff (10 * Millisecond); EvWait (10 * Millisecond) None;
       EvNow (10 * Millisecond);
       EvSetNX "k" v (100 * Millisecond) false None;
       EvBackoff (10 * Millisecond);
       EvWait (10 * Millisecond) (Some Canceled)] /\
    outcome r = Failed Canceled.
Proof.
  destruct (Obtain_cancelled_returns_ctx_err
              (New busyRedis) "k" (100 * Millisecond) cancelledLater
              quietWorld) as (r & c' & Hr & Hdone).
  exists r, c', "AAAAAAAAAAAAAAAAAAAAAA"%string. split; [exact Hr|].
  vm_compute in Hr. injection Hr as <- <-.
  split; [reflexivity|]. split; [reflexivity|].
  destruct (Hdone
    [EvToken _ None; EvNow 0;
     EvNow 0; EvSetNX "k" _ _ false None; EvBackoff _; EvWait _ None;
     EvNow _; EvSetNX "k" _ _ false None; EvBackoff _]
    (10 * Millisecond) (Some Canceled) [] eq_refl) as [_ Hend].
  exact (proj1 (proj2 (Hend Canceled eq_refl))).
Defined.

(** Three retries allowed: the fourth backoff is zero and the call ends
    with [ErrNotObtained]. *)
Lemma Obtain_stops_on_nonpositive_backoff_witness :
  exists r c',
    Obtain busyRedis "k" (100 * Millisecond) retryThrice quietWorld
      = Some (r, c') /\
    outcome r = Failed ErrNotObtained /\
    last (events r) (EvNow 0) = EvBackoff 0.
Proof.
  destruct (Obtain_stops_on_nonpositive_backoff
              (New busyRedis) "k" (100 * Millisecond) retryThrice
              quietWorld) as (r & c' & Hr & Hstop).
  exists r, c'. split; [exact Hr|].
  vm_compute in Hr. injection Hr as <- <-.
  split; [|reflexivity].
  refine (proj1 (proj2 (Hstop
    [EvToken _ None; EvNow 0;
     EvNow 0; EvSetNX "k" _ _ false None; EvBackoff _; EvWait _ None;
     EvNow _; EvSetNX "k" _ _ false None; EvBackoff _; EvWait _ None;
     EvNow _; EvSetNX "k" _ _ false None; EvBackoff _; EvWait _ None;
     EvNow _; EvSetNX "k" _ _ false None]
    0 [] eq_refl _))).
  lia.
Defined.

(** A round trip that fails, and a random source that fails: each error
    is what the call returns, after a single event. *)
Lemma Obtain_store_error_not_retried_witness :
  (exists r c',
      Obtain brokenRedis "k" (100 * Millisecond) retryThrice quietWorld
        = Some (r, c') /\
      fst (SetNX brokenRedis "k" "AAAAAAAAAAAAAAAAAAAAAAmeta"
                 (100 * Millisecond))
        = (false, Some (ErrOther "connection refused")) /\
      attempts (events r) = 1%nat /\
      outcome r = Failed (ErrOther "connection refused")) /\
  (exists r c',
      Obtain emptyRedis "k" (100 * Millisecond) retryThrice dryWorld
        = Some (r, c') /\
      hd_error (entropy dryWorld)
        = Some (RandErr (ErrOther "entropy unavailable")) /\
      redis_end r = emptyRedis /\
      outcome r = Failed (ErrOther "entropy unavailable")).
Proof.
  split.
  - destruct (Obtain_store_error_not_retried
                (New brokenRedis) "k" (100 * Millisecond) retryThrice
                quietWorld) as (r & c' & Hr & _ & _ & Hset & _).
    exists r, c'. split; [exact Hr|].
    vm_compute in Hr. injection Hr as <- <-.
    split; [reflexivity|]. split; [reflexivity|].
    destruct (Hset [EvToken _ None; EvNow 0; EvNow 0]
                   "k"%string _ _ false _ [] eq_refl) as [_ Hend].
    exact (proj2 (Hend _ eq_refl)).
  - destruct (Obtain_store_error_not_retried
                (New emptyRedis) "k" (100 * Millisecond) retryThrice
                dryWorld) as (r & c' & Hr & Htoken & _).
    exists r, c'. split; [exact Hr|]. split; [reflexivity|].
    destruct (Htoken _ eq_refl) as (_ & Hout & Hrc).
    split; [exact Hrc | exact Hout].
Defined.

(** One call, one token: the second fill of the random source is unread. *)
Lemma Obtain_one_token_per_call_witness :
  exists r c',
    Obtain busyRedis "k" (100 * Millisecond) retryThrice quietWorld
      = Some (r, c') /\
    List.length (entropy (world_end r)) = 1%nat.
Proof.
  destruct (Obtain_one_token_per_call
              (New busyRedis) "k" (100 * Millisecond) retryThrice
              quietWorld) as (r & c' & Hr & Hent & _).
  exists r, c'. split; [exact Hr|].
  rewrite Hent. reflexivity.
Defined.

(** * Further properties of the package *)

(** ** [exponentialBackoff] beyond the n-th call *)

(** Whatever the counter holds, the delay computed before clamping lies
    between 2 ms and [2^26] ms: the multiplication never overflows. *)
Lemma exponentialDelay_raw_range cnt :
  in_uint cnt ->
  let ms := if cnt <? 25 then shl_int 2 cnt else shl_int 2 25 in
  2 * Millisecond <= mul_int ms Millisecond <= 2 ^ 26 * Millisecond.
Proof.
  intros [H0 _]. cbv zeta.
  assert (Hms : 2 <= (if cnt <? 25 then shl_int 2 cnt else shl_int 2 25)
                <= 2 ^ 26).
  { destruct (Z.ltb_spec cnt 25).
    - rewrite shl_int_small by lia.
      assert (2 ^ cnt <= 2 ^ 25) by (apply Z.pow_le_mono_r; lia).
      assert (1 <= 2 ^ cnt) by (apply (Z.pow_le_mono_r 2 0 cnt); lia).
      change (2 ^ 26) with (2 * 2 ^ 25). lia.
    - rewrite shl_int_small by lia. change (2 ^ 26) with (2 * 2 ^ 25). lia. }
  unfold mul_int. rewrite wrap_int_id.
  - unfold Millisecond. lia.
  - unfold in_int, int_min, int_max, Millisecond.
    change (2 ^ 26) with 67108864 in Hms. lia.
Qed.

Lemma wrap_uint_in_uint x : in_uint (wrap_uint x).
Proof.
  unfold in_uint, wrap_uint, uint_mod. apply Z.mod_pos_bound. lia.
Qed.

(** Every call of an [ExponentialBackoff(min, max)], also after the counter
    has wrapped, returns at least [min] when the bounds are ordered or there
    is no upper bound, and at most [max] when there is an upper bound not
    below [min]. *)
Theorem exponentialBackoff_within_bounds (n : N) (min max : Duration) :
  (1 <= n)%N ->
  let d := nthBackoff n (ExponentialBackoff min max) in
  (max = 0 \/ min <= max -> min <= d) /\
  (max <> 0 -> min <= max -> d <= max).
Proof.
  intros Hn d. subst d. rewrite nthBackoff_exponential by assumption.
  unfold exponentialDelay.
  set (raw := mul_int _ Millisecond).
  destruct (Z.ltb_spec raw min), (Z.eqb_spec max 0), (Z.gtb_spec raw max);
    cbn; split; intros; lia.
Qed.

Lemma exponentialBackoff_within_bounds_witness :
  16 * Millisecond <= nthBackoff 1 (ExponentialBackoff (16 * Millisecond)
                                                       (64 * Millisecond)) /\
  nthBackoff 40 (ExponentialBackoff (16 * Millisecond) (64 * Millisecond))
    <= 64 * Millisecond.
Proof.
  split.
  - apply (exponentialBackoff_within_bounds
             1 (16 * Millisecond) (64 * Millisecond)); [lia|].
    right. vm_compute. discriminate.
  - apply (exponentialBackoff_within_bounds
             40 (16 * Millisecond) (64 * Millisecond)); [lia| |];
      vm_compute; discriminate.
Defined.

(** With no upper bound, or a positive one, an [ExponentialBackoff] never
    returns the non-positive duration that ends the retry loop: every call
    returns at least one nanosecond, whatever [min] is. *)
Theorem exponentialBackoff_never_stops (n : N) (min max : Duration) :
  (1 <= n)%N -> max = 0 \/ 1 <= max ->
  1 <= nthBackoff n (ExponentialBackoff min max).
Proof.
  intros Hn Hmax. rewrite nthBackoff_exponential by assumption.
  unfold exponentialDelay.
  pose proof (exponentialDelay_raw_range (wrap_uint (Z.of_N n))
                (wrap_uint_in_uint _)) as Hraw.
  cbv zeta in Hraw. set (raw := mul_int _ Millisecond) in *.
  unfold Millisecond in Hraw.
  destruct (Z.ltb_spec raw min), (Z.eqb_spec max 0), (Z.gtb_spec raw max);
    cbn; lia.
Qed.

Lemma exponentialBackoff_never_stops_witness :
  1 <= nthBackoff 18446744073709551616 (ExponentialBackoff (-5) 0) /\
  1 <= nthBackoff 7 (ExponentialBackoff 0 3).
Proof.
  split.
  - apply exponentialBackoff_never_stops; [lia | left; reflexivity].
  - apply exponentialBackoff_never_stops; [lia | right; lia].
Defined.

(** With a negative upper bound the strategy gives up at once unless [min]
    lifts the delay: for [min <= 2 ms] every call returns [max], which is
    negative. *)
Theorem exponentialBackoff_negative_max_stops (n : N) (min max : Duration) :
  (1 <= n)%N -> max < 0 -> min <= 2 * Millisecond ->
  nthBackoff n (ExponentialBackoff min max) = max.
Proof.
  intros Hn Hmax Hmin. rewrite nthBackoff_exponential by assumption.
  unfold exponentialDelay.
  pose proof (exponentialDelay_raw_range (wrap_uint (Z.of_N n))
                (wrap_uint_in_uint _)) as Hraw.
  cbv zeta in Hraw. set (raw := mul_int _ Millisecond) in *.
  unfold Millisecond in *.
  destruct (Z.ltb_spec raw min), (Z.eqb_spec max 0), (Z.gtb_spec raw max);
    cbn; lia.
Qed.

Lemma exponentialBackoff_negative_max_stops_witness :
  nthBackoff 3 (ExponentialBackoff 0 (-1)) = -1.
Proof.
  apply exponentialBackoff_negative_max_stops; [lia | lia | ].
  vm_compute. discriminate.
Defined.

(** While the counter has not wrapped, the delays of successive calls do
    not decrease, provided the bounds are ordered or there is no upper
    bound. *)
Theorem exponentialBackoff_nondecreasing (n : N) (min max : Duration) :
  (1 <= n)%N -> Z.of_N n + 1 < uint_mod -> max = 0 \/ min <= max ->
  nthBackoff n (ExponentialBackoff min max)
    <= nthBackoff (n + 1) (ExponentialBackoff min max).
Proof.
  intros Hn Hlt Hord.
  rewrite !nthBackoff_exponential by lia.
  rewrite !wrap_uint_id by (unfold in_uint; lia).
  rewrite !exponentialDelay_spec by lia.
  unfold exponentialSpec, clampBackoff.
  assert (Hpow : 2 ^ Z.min (Z.of_N n) 25 <= 2 ^ Z.min (Z.of_N (n + 1)) 25)
    by (apply Z.pow_le_mono_r; lia).
  set (a := 2 * 2 ^ Z.min (Z.of_N n) 25 * Millisecond).
  set (b := 2 * 2 ^ Z.min (Z.of_N (n + 1)) 25 * Millisecond).
  assert (Hab : a <= b) by (subst a b; unfold Millisecond; lia).
  destruct (Z.ltb_spec a min), (Z.ltb_spec b min), (Z.eqb_spec max 0),
    (Z.gtb_spec a max), (Z.gtb_spec b max); cbn; lia.
Qed.

Lemma exponentialBackoff_nondecreasing_witness :
  nthBackoff 4 (ExponentialBackoff (16 * Millisecond) 0)
    <= nthBackoff 5 (ExponentialBackoff (16 * Millisecond) 0).
Proof.
  apply (exponentialBackoff_nondecreasing 4 (16 * Millisecond) 0);
    [lia | vm_compute; reflexivity | left; reflexivity].
Defined.

(** ** [limitedRetry] and its inner strategy *)

(** After any number [n] of calls, [LimitRetry(s, max)] has called [s]
    exactly [min(n, max)] times (never, for a negative [max]); the inner
    strategy is not touched once the limit is reached. *)
Theorem limitedRetry_inner_calls (s : RetryStrategy) (max : Z) (n : N) :
  in_int max ->
  let k := N.min n (Z.to_N max) in
  afterCalls n (LimitRetry s max)
  = limitedRetry (afterCalls k s) (Z.of_N k) max.
Proof.
  intros Hm k. subst k.
  destruct (Z.le_gt_cases (Z.of_N n) max) as [Hle|Hgt].
  - rewrite N.min_l by lia. now apply afterCalls_limited.
  - rewrite N.min_r by lia.
    replace n with (n - Z.to_N max + Z.to_N max)%N at 1 by lia.
    rewrite afterCalls_add.
    destruct (Z.le_gt_cases 0 max) as [Hpos|Hneg].
    + rewrite afterCalls_limited by (auto; lia).
      apply afterCalls_limited_done. lia.
    + replace (Z.to_N max) with 0%N by lia. cbn [afterCalls N.iter].
      unfold LimitRetry. apply afterCalls_limited_done. cbn. lia.
Qed.

Lemma limitedRetry_inner_calls_witness :
  afterCalls 10 (LimitRetry (otherStrategy (fun k => Z.of_nat k) 0) 3)
    = limitedRetry (otherStrategy (fun k => Z.of_nat k) 3) 3 3.
Proof.
  assert (Hm : in_int 3) by (unfold in_int, int_min, int_max; lia).
  rewrite (limitedRetry_inner_calls
             (otherStrategy (fun k => Z.of_nat k) 0) 3 10 Hm).
  reflexivity.
Defined.

(** ** More about the loop of [Obtain] *)

Section TraceMeasures.

Variables (deadline : Z) (key value : string) (ttl : Duration).

Local Abbreviation trace := (loopTrace deadline key value ttl).

(** The waits completed before a conditional set fit before the deadline. *)
Lemma trace_slept_before_set lo evs out :
  trace lo evs out ->
  forall pre k v t ok err post,
    evs = pre ++ EvSetNX k v t ok err :: post ->
    lo + slept pre < deadline.
Proof.
  induction 1 as [| | | | |lo t d evs out Hlo Hlt Hd1 Htr IH];
    intros pre k v t' ok' err post Hs; peel Hs; cbn [slept]; try lia.
  specialize (IH _ _ _ _ _ _ _ Hs). lia.
Qed.

(** A set that succeeds ends the run with the lock. *)
Lemma trace_success_final lo evs out :
  trace lo evs out ->
  forall pre k v t post,
    evs = pre ++ EvSetNX k v t true None :: post ->
    post = [] /\ out = Locked (mkLock key value).
Proof.
  induction 1 as [| | | | |lo t d evs out Hlo Hlt Hd1 Htr IH];
    intros pre k v t' post Hs; peel Hs; eauto.
Qed.

(** A run that ends with a lock ends with a set that succeeded. *)
Lemma trace_locked_last lo evs out l :
  trace lo evs out -> out = Locked l ->
  exists pre, evs = pre ++ [EvSetNX key value ttl true None].
Proof.
  induction 1 as [| | | | |lo t d evs out Hlo Hlt Hd1 Htr IH];
    intros Hl; try discriminate Hl.
  - exists [EvNow t]. reflexivity.
  - destruct (IH Hl) as (pre & ->).
    exists (EvNow t :: EvSetNX key value ttl false None :: EvBackoff d ::
            EvWait d None :: pre).
    reflexivity.
Qed.

(** Why a run fails: the deadline or the strategy ([ErrNotObtained]), the
    store, or the context. *)
Lemma trace_failure_cause lo evs out e :
  trace lo evs out -> out = Failed e ->
  e = ErrNotObtained \/
  (exists pre k v t ok, evs = pre ++ [EvSetNX k v t ok (Some e)]) \/
  (exists pre d, evs = pre ++ [EvWait d (Some e)]).
Proof.
  induction 1 as [| | | | |lo t d evs out Hlo Hlt Hd1 Htr IH];
    intros Hf; try discriminate Hf; try injection Hf as <-; auto.
  - right. left. exists [EvNow t], key, value, ttl, ok. reflexivity.
  - right. right.
    exists [EvNow t; EvSetNX key value ttl false None; EvBackoff d], d.
    reflexivity.
  - destruct (IH Hf) as [He | [(pre & k & v & t' & ok & ->) | (pre & d' & ->)]];
      auto.
    + right. left.
      exists (EvNow t :: EvSetNX key value ttl false None :: EvBackoff d ::
              EvWait d None :: pre), k, v, t', ok.
      reflexivity.
    + right. right.
      exists (EvNow t :: EvSetNX key value ttl false None :: EvBackoff d ::
              EvWait d None :: pre), d'.
      reflexivity.
Qed.

End TraceMeasures.

Section LoopMeasures.

Context {R : Type} `{RedisClient R}.

(** A strategy whose next backoff is below one nanosecond allows a single
    conditional set. *)
Lemma obtainLoop_single_attempt fuel deadline key value ttl ctx retry
      (rc : R) w r :
  fst (NextBackoff retry) < 1 ->
  obtainLoop fuel deadline key value ttl ctx retry rc w = Some r ->
  (attempts (events r) <= 1)%nat /\
  (forall pre k v t post,
      events r = pre ++ EvSetNX k v t false None :: post ->
      post = [EvBackoff (fst (NextBackoff retry))] /\
      outcome r = Failed ErrNotObtained).
Proof.
  intros Hb Hr. destruct fuel as [|fuel]; [discriminate|].
  cbn [obtainLoop] in Hr.
  destruct (now w <? deadline).
  2: { injection Hr as <-. cbn. split; [lia|].
       intros pre k v t post Hs. peel Hs. }
  destruct (Client_obtain rc key value ttl) as [[ok err] rc1].
  destruct err as [e|].
  { injection Hr as <-. cbn. split; [lia|].
    intros pre k v t post Hs. peel Hs. }
  destruct ok.
  { injection Hr as <-. cbn. split; [lia|].
    intros pre k v t post Hs. peel Hs. }
  destruct (NextBackoff retry) as [backoff retry1]. cbn [fst] in *.
  destruct (Z.ltb_spec backoff 1); [|lia].
  injection Hr as <-. cbn. split; [lia|].
  intros pre k v t post Hs. peel Hs. auto.
Qed.

(** A [limitedRetry] that has [max - cnt] delegations left allows that
    many retries after the first conditional set. *)
Lemma obtainLoop_limited fuel deadline key value ttl ctx s cnt max
      (rc : R) w r :
  in_int max -> 0 <= cnt <= max ->
  obtainLoop fuel deadline key value ttl ctx (limitedRetry s cnt max) rc w
    = Some r ->
  Z.of_nat (attempts (events r)) <= max - cnt + 1.
Proof.
  intros Hm. revert ctx s cnt rc w r.
  induction fuel as [|fuel IH]; intros ctx s cnt rc w r Hc Hr;
    [discriminate|].
  cbn [obtainLoop] in Hr.
  destruct (now w <? deadline).
  2: { injection Hr as <-. cbn. lia. }
  destruct (Client_obtain rc key value ttl) as [[ok err] rc1].
  destruct err as [e|].
  { injection Hr as <-. cbn. lia. }
  destruct ok.
  { injection Hr as <-. cbn. lia. }
  cbn [NextBackoff] in Hr.
  destruct (Z.geb_spec cnt max) as [Hge|Hlt].
  { cbn in Hr. injection Hr as <-. cbn. lia. }
  destruct (NextBackoff s) as [backoff s'].
  destruct (backoff <? 1).
  { injection Hr as <-. cbn. lia. }
  destruct (selectDone ctx) as [[e|] ctx1].
  { injection Hr as <-. cbn. lia. }
  destruct (obtainLoop fuel deadline key value ttl ctx1
              (limitedRetry s' (add_int cnt 1) max) rc1
              (elapse backoff (elapse 0 w))) as [r'|] eqn:Hloop;
    [|discriminate].
  cbn in Hr. injection Hr as <-. cbn [events before app attempts].
  unfold add_int in Hloop. rewrite wrap_int_id in Hloop
    by (unfold in_int, int_min, int_max in *; lia).
  apply IH in Hloop; lia.
Qed.

(** Under the background context no wait is ended by the context. *)
Lemma obtainLoop_background fuel deadline key value ttl retry (rc : R) w r :
  obtainLoop fuel deadline key value ttl Background retry rc w = Some r ->
  forall d e, ~ In (EvWait d (Some e)) (events r).
Proof.
  revert retry rc w r.
  induction fuel as [|fuel IH]; intros retry rc w r Hr d0 e0;
    [discriminate|].
  cbn [obtainLoop] in Hr.
  destruct (now w <? deadline).
  2: { injection Hr as <-. cbn. intros [Hin|[]]; discriminate. }
  destruct (Client_obtain rc key value ttl) as [[ok err] rc1].
  destruct err as [e|].
  { injection Hr as <-. cbn. intros [Hin|[Hin|[]]]; discriminate. }
  destruct ok.
  { injection Hr as <-. cbn. intros [Hin|[Hin|[]]]; discriminate. }
  destruct (NextBackoff retry) as [backoff retry1].
  destruct (backoff <? 1).
  { injection Hr as <-. cbn. intros [Hin|[Hin|[Hin|[]]]]; discriminate. }
  cbn [selectDone Background] in Hr.
  destruct (obtainLoop fuel deadline key value ttl [] retry1 rc1
              (elapse backoff (elapse 0 w))) as [r'|] eqn:Hloop;
    [|discriminate].
  cbn in Hr. injection Hr as <-. cbn.
  intros [Hin|[Hin|[Hin|[Hin|Hin]]]]; try discriminate.
  exact (IH _ _ _ _ Hloop d0 e0 Hin).
Qed.

(** The store as a failed draw of the token, or a lease that is not
    positive, leaves it. *)
Lemma obtainLoop_past_deadline fuel deadline key value ttl ctx retry
      (rc : R) w r :
  deadline <= now w ->
  obtainLoop fuel deadline key value ttl ctx retry rc w = Some r ->
  redis_end r = rc /\ retry_end r = retry.
Proof.
  intros Hd Hr. destruct fuel as [|fuel]; [discriminate|].
  cbn [obtainLoop] in Hr.
  destruct (Z.ltb_spec (now w) deadline); [lia|].
  injection Hr as <-. auto.
Qed.

End LoopMeasures.

(** ** More about [Client.Obtain] *)

Section ObtainMore.

Context {R : Type} `{RedisClient R}.

(** Options without a retry strategy, or no options at all: the call makes
    at most one conditional set, and when that set loses to contention the
    call ends at once with [ErrNotObtained]. *)
Theorem Obtain_default_single_attempt (c : Client R) key ttl opt w :
  opt = None \/ (exists o, opt = Some o /\ opt_RetryStrategy o = None) ->
  exists r c', Client_Obtain c key ttl opt w = Some (r, c') /\
    (attempts (events r) <= 1)%nat /\
    (forall pre k v t post,
        events r = pre ++ EvSetNX k v t false None :: post ->
        post = [EvBackoff 0] /\ outcome r = Failed ErrNotObtained).
Proof.
  intros Hopt.
  assert (Hretry : getRetryStrategy opt = NoRetry).
  { destruct Hopt as [-> | (o & -> & Ho)]; cbn; [|rewrite Ho]; reflexivity. }
  destruct (Client_Obtain_returns c key ttl opt w) as (r & c' & Hr).
  exists r, c'. split; [exact Hr|].
  destruct (Client_Obtain_loop _ _ _ _ _ _ _ Hr)
    as [(token & e & c1 & w1 & _ & ->)
       | (token & c1 & w1 & r0 & _ & Hloop & ->)].
  - cbn. split; [lia|]. intros pre k v t post Hs. peel Hs.
  - rewrite Hretry in Hloop.
    assert (Hb : fst (NextBackoff NoRetry) < 1) by (cbn; lia).
    destruct (obtainLoop_single_attempt _ _ _ _ _ _ _ _ _ _ Hb Hloop)
      as [Hone Hlost].
    cbn. split; [exact Hone|].
    intros pre k v t post Hs. peel Hs.
    exact (Hlost _ _ _ _ _ Hs).
Qed.

(** With [LimitRetry(s, max)] as the strategy, [max >= 0], a call makes at
    most [max + 1] conditional sets: the first and [max] retries. *)
Theorem Obtain_limited_attempts (c : Client R) key ttl opt w s max :
  getRetryStrategy opt = LimitRetry s max ->
  in_int max -> 0 <= max ->
  exists r c', Client_Obtain c key ttl opt w = Some (r, c') /\
    Z.of_nat (attempts (events r)) <= max + 1.
Proof.
  intros Hretry Hm Hpos.
  destruct (Client_Obtain_returns c key ttl opt w) as (r & c' & Hr).
  exists r, c'. split; [exact Hr|].
  destruct (Client_Obtain_loop _ _ _ _ _ _ _ Hr)
    as [(token & e & c1 & w1 & _ & ->)
       | (token & c1 & w1 & r0 & _ & Hloop & ->)].
  - cbn. lia.
  - rewrite Hretry in Hloop. unfold LimitRetry in Hloop.
    apply obtainLoop_limited in Hloop; [|assumption|lia].
    cbn. lia.
Qed.

(** Options without a context, or no options at all: no wait of the call
    is ended by a context, so the call fails only with [ErrNotObtained] or
    with an error of the random source or of the store. *)
Theorem Obtain_background_never_cancelled (c : Client R) key ttl opt w :
  opt = None \/ (exists o, opt = Some o /\ opt_Context o = None) ->
  exists r c', Client_Obtain c key ttl opt w = Some (r, c') /\
    (forall d e, ~ In (EvWait d (Some e)) (events r)) /\
    (forall e, outcome r = Failed e ->
       e = ErrNotObtained \/
       (exists token, events r = [EvToken token (Some e)]) \/
       (exists pre k v t ok, events r = pre ++ [EvSetNX k v t ok (Some e)])).
Proof.
  intros Hopt.
  assert (Hctx : getContext opt = Background).
  { destruct Hopt as [-> | (o & -> & Ho)]; cbn; [|rewrite Ho]; reflexivity. }
  destruct (Client_Obtain_returns c key ttl opt w) as (r & c' & Hr).
  exists r, c'. split; [exact Hr|].
  destruct (Client_Obtain_loop _ _ _ _ _ _ _ Hr)
    as [(token & e & c1 & w1 & _ & ->)
       | (token & c1 & w1 & r0 & _ & Hloop & ->)].
  - cbn. split.
    + intros d e0 [Hin|[]]. discriminate.
    + intros e0 He. injection He as <-. right. left. eauto.
  - rewrite Hctx in Hloop.
    pose proof (obtainLoop_background _ _ _ _ _ _ _ _ _ Hloop) as Hnever.
    pose proof (obtainLoop_trace _ _ _ _ _ _ _ _ _ _ Hloop) as Htr.
    cbn. split.
    + intros d e [Hin|[Hin|Hin]]; try discriminate.
      exact (Hnever d e Hin).
    + intros e He.
      destruct (trace_failure_cause _ _ _ _ _ _ _ _ Htr He)
        as [Hn | [(pre & k & v & t & ok & Hev) | (pre & d & Hev)]].
      * now left.
      * right. right.
        exists (EvToken token None :: EvNow (now w1) :: pre), k, v, t, ok.
        rewrite Hev. reflexivity.
      * exfalso. apply (Hnever d e). rewrite Hev.
        apply in_or_app. right. left. reflexivity.
Qed.

(** Before every conditional set of a call, the waits completed so far
    add up to less than [ttl]. *)
Theorem Obtain_sleeps_less_than_ttl (c : Client R) key ttl opt w :
  exists r c', Client_Obtain c key ttl opt w = Some (r, c') /\
    forall pre k v t ok err post,
      events r = pre ++ EvSetNX k v t ok err :: post ->
      slept pre < ttl.
Proof.
  destruct (Client_Obtain_returns c key ttl opt w) as (r & c' & Hr).
  exists r, c'. split; [exact Hr|].
  destruct (Client_Obtain_shape _ _ _ _ _ _ _ Hr) as [_ Hshape].
  intros pre k v t ok err post Hs.
  destruct Hshape
    as [(e0 & Hev & _) | (token & t0 & evs & Hev & _ & _ & _ & Htr)];
    rewrite Hev in Hs; peel Hs.
  pose proof (trace_slept_before_set _ _ _ _ _ _ _ Htr _ _ _ _ _ _ _ Hs).
  cbn [slept]. lia.
Qed.

(** A call returns a lock exactly when [SetNX] of the binding answered
    [(true, nil)]: that set is the last event, the lock holds the key of the
    call and the value that was set, and the binding is left as that set
    left it; every set of the call is what the binding answers after the
    earlier sets, and one that succeeds is never followed by anything. *)
Theorem Obtain_lock_iff_set_succeeded (c : Client R) key ttl opt w :
  exists r c', Client_Obtain c key ttl opt w = Some (r, c') /\
    (forall l, outcome r = Locked l ->
       Lock_Key l = key /\
       exists pre,
         events r = pre ++ [EvSetNX key (value l) ttl true None] /\
         SetNX (storeAfter (attempts pre) (redisClient c) key (value l) ttl)
               key (value l) ttl
         = (true, None, redis_end r)) /\
    (forall pre k v t ok err post,
        events r = pre ++ EvSetNX k v t ok err :: post ->
        SetNX (storeAfter (attempts pre) (redisClient c) k v t) k v t
        = (ok, err, storeAfter (S (attempts pre)) (redisClient c) k v t) /\
        (ok = true -> err = None ->
         post = [] /\ outcome r = Locked (mkLock k v))).
Proof.
  destruct (Client_Obtain_returns c key ttl opt w) as (r & c' & Hr).
  exists r, c'. split; [exact Hr|].
  destruct (Client_Obtain_inputs _ _ _ _ _ _ _ Hr) as (_ & Hsets & Hend).
  destruct (Client_Obtain_shape _ _ _ _ _ _ _ Hr) as [_ Hshape].
  destruct Hshape
    as [(e0 & Hev & Ho) | (token & t0 & evs & Hev & _ & _ & _ & Htr)].
  - split.
    + intros l Hl. rewrite Ho in Hl. discriminate Hl.
    + intros pre k v t ok err post Hs. rewrite Hev in Hs. peel Hs.
  - split.
    + intros l Hl.
      pose proof (trace_locked_value _ _ _ _ _ _ _ _ Htr Hl) as ->.
      destruct (trace_locked_last _ _ _ _ _ _ _ _ Htr Hl) as (pre & Hevs).
      split; [reflexivity|].
      exists (EvToken token None :: EvNow t0 :: pre).
      assert (Hall : events r = (EvToken token None :: EvNow t0 :: pre)
                                ++ [EvSetNX key (token ++ getMetadata opt)
                                            ttl true None])
        by (rewrite Hev, Hevs; reflexivity).
      split; [exact Hall|]. cbn [value].
      rewrite (Hsets _ _ _ _ _ _ _ Hall). f_equal.
      rewrite (Hend key (token ++ getMetadata opt)%string ttl true None).
      * rewrite Hall, attempts_app. cbn [attempts].
        now rewrite Nat.add_1_r.
      * rewrite Hall. apply in_or_app. right. left. reflexivity.
    + intros pre k v t ok err post Hs.
      split; [exact (Hsets _ _ _ _ _ _ _ Hs)|].
      rewrite Hev in Hs. peel Hs.
      assert (Hin : In (EvSetNX k v t ok err) evs)
        by (rewrite Hs; apply in_or_app; right; left; reflexivity).
      destruct (trace_setnx_args _ _ _ _ _ _ _ _ _ _ _ _ Htr Hin)
        as (-> & -> & ->).
      intros -> ->.
      exact (trace_success_final _ _ _ _ _ _ _ Htr _ _ _ _ _ Hs).
Qed.

(** A lease that is not positive still draws a token, but then leaves
    the store and the strategy as they were and returns [ErrNotObtained]. *)
Theorem Obtain_nonpositive_ttl_untouched (c : Client R) key ttl opt w :
  ttl <= 0 ->
  exists r c', Client_Obtain c key ttl opt w = Some (r, c') /\
    entropy (world_end r) = tl (entropy w) /\
    redis_end r = redisClient c /\
    retry_end r = getRetryStrategy opt /\
    (forall token, hd_error (events r) = Some (EvToken token None) ->
                   outcome r = Failed ErrNotObtained).
Proof.
  intros Httl.
  destruct (Client_Obtain_returns c key ttl opt w) as (r & c' & Hr).
  exists r, c'. split; [exact Hr|].
  destruct (Client_Obtain_shape _ _ _ _ _ _ _ Hr) as [Hent _].
  split; [exact Hent|].
  pose proof (randomToken_keeps_store c w) as Hkeep.
  destruct (Client_Obtain_loop _ _ _ _ _ _ _ Hr)
    as [(token & e & c1 & w1 & Htok & ->)
       | (token & c1 & w1 & r0 & Htok & Hloop & ->)];
    rewrite Htok in Hkeep; cbn [fst snd] in Hkeep.
  - cbn. repeat split; auto. intros token' Hhd. discriminate Hhd.
  - pose proof (elapse_now 0 w1) as Hnow.
    assert (Hpast : now w1 + ttl <= now (elapse 0 w1)) by lia.
    destruct (obtainLoop_past_deadline _ _ _ _ _ _ _ _ _ _ Hpast Hloop)
      as [Hrc Hre].
    cbn. rewrite Hrc, Hre. repeat split; auto.
    intros token' _. apply obtainLoop_trace in Hloop.
    inversion Hloop; subst; try lia. congruence.
Qed.

End ObtainMore.

(** Without options, on a key that is taken: one set, then
    [ErrNotObtained]. *)
Lemma Obtain_default_single_attempt_witness :
  exists r c',
    Obtain busyRedis "k" (100 * Millisecond) None quietWorld = Some (r, c') /\
    attempts (events r) = 1%nat /\
    outcome r = Failed ErrNotObtained.
Proof.
  destruct (Obtain_default_single_attempt
              (New busyRedis) "k" (100 * Millisecond) None quietWorld
              (or_introl eq_refl)) as (r & c' & Hr & _ & Hlost).
  exists r, c'. split; [exact Hr|].
  vm_compute in Hr. injection Hr as <- <-.
  split; [reflexivity|].
  exact (proj2 (Hlost [EvToken _ None; EvNow 0; EvNow 0]
                      "k"%string _ _ _ eq_refl)).
Defined.

(** Three retries allowed on a key that stays taken: four sets. *)
Lemma Obtain_limited_attempts_witness :
  exists r c',
    Obtain busyRedis "k" (100 * Millisecond) retryThrice quietWorld
      = Some (r, c') /\
    attempts (events r) = 4%nat /\
    Z.of_nat (attempts (events r)) <= 3 + 1.
Proof.
  assert (Hm : in_int 3) by (unfold in_int, int_min, int_max; lia).
  destruct (Obtain_limited_attempts
              (New busyRedis) "k" (100 * Millisecond) retryThrice quietWorld
              (LinearBackoff (10 * Millisecond)) 3 eq_refl Hm ltac:(lia))
    as (r & c' & Hr & Hle).
  exists r, c'. split; [exact Hr|]. split; [|exact Hle].
  vm_compute in Hr. injection Hr as <- <-. reflexivity.
Defined.

(** Retrying every 10 ms without a context: the call ends on the deadline. *)
Lemma Obtain_background_never_cancelled_witness :
  exists r c',
    Obtain busyRedis "k" (25 * Millisecond) retryEvery10ms quietWorld
      = Some (r, c') /\
    outcome r = Failed ErrNotObtained /\
    forall d e, ~ In (EvWait d (Some e)) (events r).
Proof.
  destruct (Obtain_background_never_cancelled
              (New busyRedis) "k" (25 * Millisecond) retryEvery10ms
              quietWorld)
    as (r & c' & Hr & Hnever & _).
  - right. eexists. split; reflexivity.
  - exists r, c'. split; [exact Hr|]. split; [|exact Hnever].
    vm_compute in Hr. injection Hr as <- <-. reflexivity.
Defined.

(** A lease of zero on an empty store: the store stays empty, one fill of
    the random source is used up. *)
Lemma Obtain_nonpositive_ttl_untouched_witness :
  exists r c',
    Obtain emptyRedis "k" 0 retryThrice quietWorld = Some (r, c') /\
    redis_end r = emptyRedis /\
    List.length (entropy (world_end r)) = 1%nat /\
    outcome r = Failed ErrNotObtained.
Proof.
  destruct (Obtain_nonpositive_ttl_untouched
              (New emptyRedis) "k" 0 retryThrice quietWorld ltac:(lia))
    as (r & c' & Hr & Hent & Hrc & _ & Hout).
  exists r, c'. split; [exact Hr|]. split; [exact Hrc|].
  split; [rewrite Hent; reflexivity|].
  vm_compute in Hr. injection Hr as <- <-.
  exact (Hout _ eq_refl).
Defined.

(** Retrying every 10 ms for 25 ms: 20 ms slept before the third set. *)
Lemma Obtain_sleeps_less_than_ttl_witness :
  exists r c',
    Obtain busyRedis "k" (25 * Millisecond) retryEvery10ms quietWorld
      = Some (r, c') /\
    attempts (events r) = 3%nat /\
    20 * Millisecond < 25 * Millisecond.
Proof.
  destruct (Obtain_sleeps_less_than_ttl
              (New busyRedis) "k" (25 * Millisecond) retryEvery10ms
              quietWorld) as (r & c' & Hr & Hslept).
  exists r, c'. split; [exact Hr|].
  vm_compute in Hr. injection Hr as <- <-.
  split; [reflexivity|].
  exact (Hslept
    [EvToken _ None; EvNow 0;
     EvNow 0; EvSetNX "k" _ _ false None; EvBackoff _; EvWait _ None;
     EvNow _; EvSetNX "k" _ _ false None; EvBackoff _; EvWait _ None;
     EvNow _] "k"%string _ _ false None _ eq_refl).
Defined.

(** A free key: the binding answers the set with [(true, nil)], the lock is
    for ["k"], and the binding ends as that set left it. *)
Lemma Obtain_lock_iff_set_succeeded_witness :
  exists r c' l,
    Obtain emptyRedis "k" (100 * Millisecond) None quietWorld
      = Some (r, c') /\
    outcome r = Locked l /\ Lock_Key l = "k"%string /\
    SetNX emptyRedis "k" (value l) (100 * Millisecond)
      = (true, None, redis_end r).
Proof.
  destruct (Obtain_lock_iff_set_succeeded
              (New emptyRedis) "k" (100 * Millisecond) None quietWorld)
    as (r & c' & Hr & Hlock & _).
  exists r, c', (mkLock "k" "AAAAAAAAAAAAAAAAAAAAAA").
  split; [exact Hr|].
  vm_compute in Hr. injection Hr as <- <-.
  split; [reflexivity|].
  destruct (Hlock _ eq_refl) as (Hkey & pre & Hev & Hset).
  split; [exact Hkey|]. reflexivity.
Defined.

(** ** The token encoding *)

Section Base64.

Local Open Scope N_scope.

Lemma lor_disjoint (x a n : N) :
  a < 2 ^ n -> N.lor (N.shiftl x n) a = x * 2 ^ n + a.
Proof.
  intros Ha. rewrite N.shiftl_mul_pow2.
  rewrite <- N.lxor_lor, <- N.add_nocarry_lxor; auto.
  all: apply N.bits_inj; intros m; rewrite N.land_spec, N.bits_0.
  all: destruct (N.lt_ge_cases m n) as [Hlt|Hge].
  all: try (rewrite N.mul_pow2_bits_low by assumption; reflexivity).
  all: replace a with (a mod 2 ^ n) by (apply N.mod_small; assumption).
  all: rewrite N.mod_pow2_bits_high by assumption; apply andb_false_r.
Qed.

Lemma byteVal_lt (b : Byte.byte) : byteVal b < 256.
Proof. unfold byteVal. pose proof (Byte.to_N_bounded b). lia. Qed.

Lemma byteVal_inj (a b : Byte.byte) : byteVal a = byteVal b -> a = b.
Proof.
  unfold byteVal. intros Heq.
  pose proof (Byte.of_to_N a) as Ha. pose proof (Byte.of_to_N b) as Hb.
  rewrite Heq in Ha. congruence.
Qed.

Lemma group24_value b0 b1 b2 :
  group24 b0 b1 b2 = byteVal b0 * 65536 + byteVal b1 * 256 + byteVal b2.
Proof.
  unfold group24.
  pose proof (byteVal_lt b0). pose proof (byteVal_lt b1).
  pose proof (byteVal_lt b2).
  rewrite (lor_disjoint (byteVal b0) (N.shiftl (byteVal b1) 8) 16).
  2: { rewrite N.shiftl_mul_pow2. change (2 ^ 8) with 256.
       change (2 ^ 16) with 65536. lia. }
  rewrite N.shiftl_mul_pow2.
  replace (byteVal b0 * 2 ^ 16 + byteVal b1 * 2 ^ 8)
    with (N.shiftl (byteVal b0 * 256 + byteVal b1) 8).
  2: { rewrite N.shiftl_mul_pow2. change (2 ^ 8) with 256.
       change (2 ^ 16) with 65536. lia. }
  rewrite lor_disjoint by (change (2 ^ 8) with 256; assumption).
  change (2 ^ 8) with 256. lia.
Qed.

Lemma sextetIndex_mod v k : sextetIndex v k = (v / 2 ^ k) mod 64.
Proof.
  unfold sextetIndex. change 63 with (N.ones 6).
  now rewrite N.land_ones, N.shiftr_div_pow2.
Qed.

Lemma sextetIndex_lt v k : sextetIndex v k < 64.
Proof. rewrite sextetIndex_mod. apply N.mod_lt. discriminate. Qed.

(** A 24-bit group is its four six-bit digits. *)
Lemma group_of_digits v :
  v < 2 ^ 24 ->
  v = sextetIndex v 18 * 262144 + sextetIndex v 12 * 4096
      + sextetIndex v 6 * 64 + sextetIndex v 0.
Proof.
  intros Hv. rewrite !sextetIndex_mod.
  change (2 ^ 18) with (64 * 64 * 64). change (2 ^ 12) with (64 * 64).
  change (2 ^ 6) with 64. change (2 ^ 0) with 1. rewrite N.div_1_r.
  rewrite <- !N.Div0.div_div.
  pose proof (N.div_mod' v 64) as H0.
  pose proof (N.div_mod' (v / 64) 64) as H1.
  pose proof (N.div_mod' (v / 64 / 64) 64) as H2.
  assert (H3 : v / 64 / 64 / 64 < 64).
  { rewrite !N.Div0.div_div. apply N.Div0.div_lt_upper_bound.
    change (2 ^ 24) with 16777216 in Hv. lia. }
  rewrite (N.mod_small (v / 64 / 64 / 64) 64) by exact H3.
  generalize dependent (v / 64 / 64 / 64). intros q3 H2 H3.
  generalize dependent (v / 64 / 64). intros q2 H1 H2.
  generalize dependent (v / 64). intros q1 H0 H1.
  generalize dependent (q2 mod 64). generalize dependent (q1 mod 64).
  generalize dependent (v mod 64). intros. lia.
Qed.

Lemma group24_lt b0 b1 b2 : group24 b0 b1 b2 < 2 ^ 24.
Proof.
  rewrite group24_value.
  pose proof (byteVal_lt b0). pose proof (byteVal_lt b1).
  pose proof (byteVal_lt b2). change (2 ^ 24) with 16777216. lia.
Qed.

Lemma group24_inj a0 a1 a2 b0 b1 b2 :
  group24 a0 a1 a2 = group24 b0 b1 b2 -> a0 = b0 /\ a1 = b1 /\ a2 = b2.
Proof.
  rewrite !group24_value. intros Heq.
  pose proof (byteVal_lt a0). pose proof (byteVal_lt a1).
  pose proof (byteVal_lt a2). pose proof (byteVal_lt b0).
  pose proof (byteVal_lt b1). pose proof (byteVal_lt b2).
  repeat split; apply byteVal_inj; lia.
Qed.

End Base64.

(** The 64 letters of the alphabet are distinct. *)
Lemma encodeURL_NoDup : NoDup (list_ascii_of_string encodeURL).
Proof.
  cbn. repeat (constructor;
    [ let Hin := fresh in
      intros Hin; cbn in Hin;
      repeat (destruct Hin as [Hin|Hin]; [discriminate Hin|]);
      exact Hin | ]).
  constructor.
Qed.

Lemma sextet_is_nth v k :
  sextet v k = nth (N.to_nat (sextetIndex v k))
                   (list_ascii_of_string encodeURL) "A"%char.
Proof. reflexivity. Qed.

Lemma sextet_inj v v' k :
  sextet v k = sextet v' k -> sextetIndex v k = sextetIndex v' k.
Proof.
  rewrite !sextet_is_nth. intros Heq.
  pose proof (sextetIndex_lt v k). pose proof (sextetIndex_lt v' k).
  apply N2Nat.inj.
  refine (proj1 (NoDup_nth _ _) encodeURL_NoDup _ _ _ _ Heq);
    change (List.length (list_ascii_of_string encodeURL)) with 64%nat; lia.
Qed.

Lemma sextet_in_alphabet v k :
  In (sextet v k) (list_ascii_of_string encodeURL).
Proof.
  rewrite sextet_is_nth. apply nth_In.
  pose proof (sextetIndex_lt v k).
  change (List.length (list_ascii_of_string encodeURL)) with 64%nat. lia.
Qed.

Section Base64Groups.

Local Open Scope N_scope.

Lemma digits_inj v v' :
  v < 2 ^ 24 -> v' < 2 ^ 24 ->
  sextetIndex v 18 = sextetIndex v' 18 ->
  sextetIndex v 12 = sextetIndex v' 12 ->
  sextetIndex v 6 = sextetIndex v' 6 ->
  sextetIndex v 0 = sextetIndex v' 0 ->
  v = v'.
Proof.
  intros Hv Hv' H18 H12 H6 H0.
  rewrite (group_of_digits v Hv), (group_of_digits v' Hv').
  now rewrite H18, H12, H6, H0.
Qed.

(** What is left of a group when one or two bytes remain. *)
Lemma group24_one b0 :
  N.shiftl (byteVal b0) 16 = group24 b0 Byte.x00 Byte.x00.
Proof.
  unfold group24. change (byteVal Byte.x00) with 0.
  change (N.shiftl 0 8) with 0. now rewrite !N.lor_0_r.
Qed.

Lemma group24_two b0 b1 :
  N.lor (N.shiftl (byteVal b0) 16) (N.shiftl (byteVal b1) 8)
  = group24 b0 b1 Byte.x00.
Proof.
  unfold group24. change (byteVal Byte.x00) with 0. now rewrite N.lor_0_r.
Qed.

Lemma last_digit_zero b0 b1 : sextetIndex (group24 b0 b1 Byte.x00) 0 = 0.
Proof.
  rewrite sextetIndex_mod, group24_value.
  change (byteVal Byte.x00) with 0. change (2 ^ 0) with 1.
  rewrite N.div_1_r, N.add_0_r.
  replace (byteVal b0 * 65536 + byteVal b1 * 256)
    with ((byteVal b0 * 1024 + byteVal b1 * 4) * 64) by lia.
  apply N.Div0.mod_mul.
Qed.

Lemma third_digit_zero b0 : sextetIndex (group24 b0 Byte.x00 Byte.x00) 6 = 0.
Proof.
  rewrite sextetIndex_mod, group24_value.
  change (byteVal Byte.x00) with 0. change (2 ^ 6) with 64.
  rewrite N.mul_0_l, !N.add_0_r.
  replace (byteVal b0 * 65536) with (byteVal b0 * 1024 * 64) by lia.
  rewrite N.div_mul by discriminate.
  replace (byteVal b0 * 1024) with (byteVal b0 * 16 * 64) by lia.
  apply N.Div0.mod_mul.
Qed.

End Base64Groups.

(** The encoder is injective: two byte sequences with the same text are
    the same sequence, so two tokens are equal only if the same 16 bytes
    were drawn. *)
Theorem EncodeToString_injective (a b : list Byte.byte) :
  EncodeToString a = EncodeToString b -> a = b.
Proof.
  assert (Hall : forall n (x y : list Byte.byte),
             (List.length x <= n)%nat ->
             EncodeToString x = EncodeToString y -> x = y).
  { induction n as [|n IH]; intros x y Hlen Heq.
    - destruct x; [|cbn in Hlen; lia].
      destruct y as [|y0 [|y1 [|y2 ry]]]; [reflexivity | | | ];
        discriminate Heq.
    - destruct x as [|x0 [|x1 [|x2 rx]]];
        destruct y as [|y0 [|y1 [|y2 ry]]];
        cbn [EncodeToString] in Heq; cbv zeta in Heq;
        try discriminate Heq; try reflexivity.
      + rewrite !group24_one in Heq.
        injection Heq as H18 H12.
        apply sextet_inj in H18, H12.
        assert (Hv : group24 x0 Byte.x00 Byte.x00
                     = group24 y0 Byte.x00 Byte.x00).
        { apply digits_inj; auto using group24_lt.
          - now rewrite !third_digit_zero.
          - now rewrite !last_digit_zero. }
        apply group24_inj in Hv. destruct Hv as (-> & _). reflexivity.
      + rewrite !group24_two in Heq.
        injection Heq as H18 H12 H6.
        apply sextet_inj in H18, H12, H6.
        assert (Hv : group24 x0 x1 Byte.x00 = group24 y0 y1 Byte.x00).
        { apply digits_inj; auto using group24_lt.
          now rewrite !last_digit_zero. }
        apply group24_inj in Hv. destruct Hv as (-> & -> & _). reflexivity.
      + fold (group24 x0 x1 x2) in Heq. fold (group24 y0 y1 y2) in Heq.
        injection Heq as H18 H12 H6 H0 Hrest.
        apply sextet_inj in H18, H12, H6, H0.
        assert (Hv : group24 x0 x1 x2 = group24 y0 y1 y2)
          by (apply digits_inj; auto using group24_lt).
        apply group24_inj in Hv. destruct Hv as (-> & -> & ->).
        f_equal. f_equal. f_equal.
        apply IH; [cbn in Hlen; lia | exact Hrest]. }
  apply (Hall (List.length a)). lia.
Qed.

Lemma EncodeToString_injective_witness :
  repeat Byte.x00 16 = map (fun _ : nat => Byte.x00) (seq 0 16).
Proof.
  apply EncodeToString_injective. reflexivity.
Defined.

(** Every character of an encoding is one of the 64 letters of the
    URL-safe alphabet: there is no padding and nothing to escape. *)
Theorem EncodeToString_alphabet (src : list Byte.byte) :
  Forall (fun ch => In ch (list_ascii_of_string encodeURL))
         (list_ascii_of_string (EncodeToString src)).
Proof.
  assert (Hall : forall n (x : list Byte.byte),
             (List.length x <= n)%nat ->
             Forall (fun ch => In ch (list_ascii_of_string encodeURL))
                    (list_ascii_of_string (EncodeToString x))).
  { induction n as [|n IH]; intros x Hlen.
    - destruct x; [constructor | cbn in Hlen; lia].
    - destruct x as [|x0 [|x1 [|x2 rx]]];
        cbn [EncodeToString list_ascii_of_string]; cbv zeta;
        repeat (constructor; [apply sextet_in_alphabet|]);
        try constructor.
      apply IH. cbn in Hlen. lia. }
  apply (Hall (List.length src)). lia.
Qed.

(** The length of an encoding, by the number of bytes that do not fill a
    group of three: no padding is added. *)
Theorem EncodeToString_length_by_remainder (src : list Byte.byte) :
  let n := List.length src in
  String.length (EncodeToString src)
  = (4 * (n / 3) + match n mod 3 with
                   | 0 => 0 | 1 => 2 | _ => 3
                   end)%nat.
Proof.
  cbv zeta. rewrite EncodeToString_length.
  set (n := List.length src).
  pose proof (Nat.div_mod_eq n 3) as Hn.
  pose proof (Nat.mod_upper_bound n 3 ltac:(lia)) as Hr.
  set (q := (n / 3)%nat) in *. set (m := (n mod 3)%nat) in *.
  rewrite Hn.
  destruct m as [|[|[|m]]]; try lia.
  - replace (4 * (3 * q + 0) + 2)%nat with (2 + (4 * q) * 3)%nat by lia.
    rewrite Nat.div_add by lia. cbn. lia.
  - replace (4 * (3 * q + 1) + 2)%nat with (6 + (4 * q) * 3)%nat by lia.
    rewrite Nat.div_add by lia. cbn. lia.
  - replace (4 * (3 * q + 2) + 2)%nat with (10 + (4 * q) * 3)%nat by lia.
    rewrite Nat.div_add by lia. cbn. lia.
Qed.

(** ** [Lock.Refresh] *)

Lemma ParseInt_FormatInt (i : Z) : ParseInt (FormatInt i) = Some i.
Proof.
  unfold ParseInt, FormatInt. rewrite NilZero.isi.
  - cbn. now rewrite DecimalZ.of_to.
  - destruct i; cbn; try discriminate.
    intros Heq. injection Heq as Heq.
    exact (DecimalPos.Unsigned.to_uint_nonnil _ Heq).
  - destruct i; cbn; try discriminate.
    intros Heq. injection Heq as Heq.
    exact (DecimalPos.Unsigned.to_uint_nonnil _ Heq).
Qed.

Section RefreshFacts.

Context {R : Type} `{RedisClient R}.

(** [Lock.Refresh] hands the binding the key and the value of the lock and
    the new TTL as decimal text that reads back as the whole milliseconds
    of [ttl], rounded toward zero; it returns the error of the binding as
    it is, and its options play no part.  A TTL below one millisecond is
    sent as ["0"]. *)
Theorem Lock_Refresh_sends_milliseconds (l : Lock) (ttl : Duration)
    (opt : option Options) (c : Client R) :
  let text := FormatInt (Z.quot ttl Millisecond) in
  ParseInt text = Some (Z.quot ttl Millisecond) /\
  (- Millisecond < ttl < Millisecond -> text = "0"%string) /\
  Lock_Refresh l ttl opt c =
    (fst (Refresh (redisClient c) (key l) (value l) text),
     mkClient (snd (Refresh (redisClient c) (key l) (value l) text))
              (tmp c)) /\
  Lock_Refresh l ttl opt c = Lock_Refresh l ttl None c.
Proof.
  cbv zeta.
  split; [apply ParseInt_FormatInt|]. split; [|split].
  - intros Hsmall.
    assert (Hq : Z.quot ttl Millisecond = 0).
    { apply Z.quot_small_iff; unfold Millisecond in *; lia. }
    rewrite Hq. reflexivity.
  - unfold Lock_Refresh.
    destruct (Refresh _ _ _ _) as [err rc]. reflexivity.
  - reflexivity.
Qed.

End RefreshFacts.

(** ** The scripts behind the bindings *)

Section BindingFacts.

Context {Srv : Type} `{RedisServer Srv}.

Lemma roundTrip_server (c : Conn Srv) : server (snd (roundTrip c)) = server c.
Proof. unfold roundTrip. destruct (outages c); reflexivity. Qed.

(** A handle whose value is not the one stored under its key, because the
    key is gone or another holder has it: [Release] returns
    [ErrLockNotHeld], [Refresh] returns [ErrNotObtained], [TTL] returns a
    zero duration without error, and in each case the server has received
    the [GET] of the script and nothing else, so the other holder's entry
    is neither deleted nor extended. *)
Theorem stale_handle_changes_nothing (l : Lock) (c : Client (Conn Srv))
    (got : Reply) (srv1 : Srv) (ttl : Duration) (opt : option Options) :
  fst (roundTrip (redisClient c)) = None ->
  GET (server (redisClient c)) (key l) = (got, srv1) ->
  match got with
  | RError _ => False
  | RBulk v => v <> value l
  | _ => True
  end ->
  let after :=
    mkClient (mkConn srv1 (outages (snd (roundTrip (redisClient c)))))
             (tmp c) in
  Lock_Release l c = (Some ErrLockNotHeld, after) /\
  Lock_Refresh l ttl opt c = (Some ErrNotObtained, after) /\
  Lock_TTL l c = (0, None, after).
Proof.
  intros Hup Hget Hstale after. subst after.
  unfold Lock_Release, Lock_Refresh, Lock_TTL.
  cbn [Release Refresh TTL garyburd_RedisClient].
  unfold garyburd_Release, garyburd_Refresh, garyburd_TTL.
  pose proof (roundTrip_server (redisClient c)) as Hsrv.
  destruct (roundTrip (redisClient c)) as [out c1]. cbn [fst snd] in *.
  subst out. rewrite Hsrv.
  unfold LuaReleaseScript, LuaRefreshScript, LuaPTTLScript. rewrite Hget.
  destruct got as [i|v|st| |e]; try contradiction; try (repeat split).
  all: destruct (String.eqb_spec v (value l)); [contradiction|].
  all: reflexivity.
Qed.

(** A handle whose value is stored under its key: [Release] has the
    server delete the key and succeeds; when the key is then gone, a second
    [Release] of the same handle returns [ErrLockNotHeld]. *)
Theorem release_succeeds_once (l : Lock) (c : Client (Conn Srv))
    (s1 s2 s3 : Srv) :
  outages (redisClient c) = [] ->
  GET (server (redisClient c)) (key l) = (RBulk (value l), s1) ->
  DEL s1 (key l) = (RInt 1, s2) ->
  GET s2 (key l) = (RNil, s3) ->
  Lock_Release l c = (None, mkClient (mkConn s2 []) (tmp c)) /\
  Lock_Release l (mkClient (mkConn s2 []) (tmp c))
    = (Some ErrLockNotHeld, mkClient (mkConn s3 []) (tmp c)).
Proof.
  intros Hup Hget Hdel Hgone.
  unfold Lock_Release. cbn [Release garyburd_RedisClient].
  unfold garyburd_Release, roundTrip. rewrite Hup. cbn [outages server].
  unfold LuaReleaseScript. rewrite Hget, String.eqb_refl, Hdel.
  cbn. rewrite Hgone, Hup. split; reflexivity.
Qed.

(** On every reply that is an integer or an error, which is all the three
    scripts produce from integer-valued commands, the go-redis binding and
    the redigo binding return the same results, and the go-redis [TTL]
    does not panic. *)
Theorem example_bindings_agree (c : Conn Srv) (key value ttl : string) :
  let srv := server (snd (roundTrip c)) in
  let plain (r : Reply) :=
    match r with RInt _ | RError _ => True | _ => False end in
  (plain (fst (LuaRefreshScript srv key value ttl)) ->
   goredis_Refresh c key value ttl = garyburd_Refresh c key value ttl) /\
  (plain (fst (LuaReleaseScript srv key value)) ->
   goredis_Release c key value = garyburd_Release c key value) /\
  (plain (fst (LuaPTTLScript srv key value)) ->
   goredis_TTL c key value
   = (Some (fst (garyburd_TTL c key value)),
      snd (garyburd_TTL c key value))).
Proof.
  cbv zeta.
  unfold goredis_Refresh, garyburd_Refresh, goredis_Release,
    garyburd_Release, goredis_TTL, garyburd_TTL.
  destruct (roundTrip c) as [[e|] c1]; cbn [fst snd].
  { repeat split. }
  split; [|split].
  - destruct (LuaRefreshScript (server c1) key value ttl) as [reply srv].
    destruct reply as [i|v|st| |e]; cbn; try contradiction; intros _;
      try reflexivity.
    destruct i as [|[p|p|]|p]; reflexivity.
  - destruct (LuaReleaseScript (server c1) key value) as [reply srv].
    destruct reply as [i|v|st| |e]; cbn; try contradiction; intros _;
      reflexivity.
  - destruct (LuaPTTLScript (server c1) key value) as [reply srv].
    destruct reply as [i|v|st| |e]; cbn; try contradiction; intros _;
      reflexivity.
Qed.

(** The handle that holds the lock: [Refresh] sends [PEXPIRE] with the new
    TTL in whole milliseconds and succeeds when the server answers 1, and
    [TTL] returns what [PTTL] reports, as a duration, when that is positive
    and fits the duration type. *)
Theorem holder_reaches_the_lock (l : Lock) (c : Client (Conn Srv))
    (s1 s2 : Srv) (ttl : Duration) (opt : option Options) (ms : Z) :
  outages (redisClient c) = [] ->
  GET (server (redisClient c)) (key l) = (RBulk (value l), s1) ->
  (PEXPIRE s1 (key l) (FormatInt (Z.quot ttl Millisecond)) = (RInt 1, s2) ->
   Lock_Refresh l ttl opt c = (None, mkClient (mkConn s2 []) (tmp c))) /\
  (PTTL s1 (key l) = (RInt ms, s2) -> 0 < ms <= 9223372036854 ->
   Lock_TTL l c = (ms * Millisecond, None, mkClient (mkConn s2 []) (tmp c))).
Proof.
  intros Hup Hget. split.
  - intros Hexp. unfold Lock_Refresh. cbn [Refresh garyburd_RedisClient].
    unfold garyburd_Refresh, roundTrip. rewrite Hup. cbn [outages server].
    unfold LuaRefreshScript. rewrite Hget, String.eqb_refl, Hexp.
    cbn. rewrite Hup. reflexivity.
  - intros Hpttl Hms. unfold Lock_TTL. cbn [TTL garyburd_RedisClient].
    unfold garyburd_TTL, roundTrip. rewrite Hup. cbn [outages server].
    unfold LuaPTTLScript. rewrite Hget, String.eqb_refl, Hpttl.
    cbn [redigoInt64]. rewrite Hup.
    destruct (Z.gtb_spec ms 0); [|lia].
    unfold mul_int. rewrite wrap_int_id; [reflexivity|].
    unfold in_int, int_min, int_max, Millisecond. lia.
Qed.

End BindingFacts.

Lemma stale_handle_changes_nothing_witness :
  Lock_Release (mkLock "k" "stale") (New heldConn)
    = (Some ErrLockNotHeld, New heldConn) /\
  Lock_Refresh (mkLock "k" "stale") (100 * Millisecond) None (New heldConn)
    = (Some ErrNotObtained, New heldConn) /\
  Lock_TTL (mkLock "k" "stale") (New heldConn) = (0, None, New heldConn) /\
  Lock_Release (mkLock "gone" "stale") (New heldConn)
    = (Some ErrLockNotHeld, New heldConn).
Proof.
  destruct (@stale_handle_changes_nothing Table Table_RedisServer
              (mkLock "k" "stale") (New heldConn) (RBulk "mine")
              (server heldConn) (100 * Millisecond) None
              eq_refl eq_refl ltac:(discriminate))
    as (Hrel & Href & Httl).
  destruct (@stale_handle_changes_nothing Table Table_RedisServer
              (mkLock "gone" "stale") (New heldConn) RNil
              (server heldConn) 0 None eq_refl eq_refl I)
    as (Hgone & _ & _).
  repeat split; assumption.
Defined.

Lemma release_succeeds_once_witness :
  Lock_Release (mkLock "k" "mine") (New heldConn)
    = (None, New (mkConn [] [])) /\
  Lock_Release (mkLock "k" "mine") (New (mkConn ([] : Table) []))
    = (Some ErrLockNotHeld, New (mkConn [] [])).
Proof.
  exact (@release_succeeds_once Table Table_RedisServer
           (mkLock "k" "mine") (New heldConn)
           (server heldConn) [] [] eq_refl eq_refl eq_refl eq_refl).
Defined.

Lemma example_bindings_agree_witness :
  goredis_Release heldConn "k" "mine" = garyburd_Release heldConn "k" "mine" /\
  goredis_TTL heldConn "k" "mine" = (Some (50, None), heldConn).
Proof.
  destruct (@example_bindings_agree Table Table_RedisServer
              heldConn "k" "mine" "100")
    as (_ & Hrel & Httl).
  split; [exact (Hrel I) | exact (Httl I)].
Defined.

(** ** Retrying at a fixed interval *)

Section LinearRetry.

Context {R : Type} `{RedisClient R}.

Lemma obtainLoop_linear fuel deadline key value ttl ctx d (rc : R) w r :
  1 <= d ->
  obtainLoop fuel deadline key value ttl ctx (linearBackoff d) rc w
    = Some r ->
  Z.of_nat (attempts (events r)) * d < Z.max 0 (deadline - now w) + d.
Proof.
  intros Hd. revert ctx rc w r.
  induction fuel as [|fuel IH]; intros ctx rc w r Hr; [discriminate|].
  cbn [obtainLoop] in Hr.
  destruct (Z.ltb_spec (now w) deadline) as [Hlt|Hge].
  2: { injection Hr as <-. cbn [events attempts]. lia. }
  destruct (Client_obtain rc key value ttl) as [[ok err] rc1].
  destruct err as [e|].
  { injection Hr as <-. cbn [events attempts]. lia. }
  destruct ok.
  { injection Hr as <-. cbn [events attempts]. lia. }
  cbn [NextBackoff] in Hr.
  destruct (Z.ltb_spec d 1); [lia|].
  destruct (selectDone ctx) as [[e|] ctx1].
  { injection Hr as <-. cbn [events attempts]. lia. }
  destruct (obtainLoop fuel deadline key value ttl ctx1 (linearBackoff d)
              rc1 (elapse d (elapse 0 w))) as [r'|] eqn:Hloop;
    [|discriminate].
  cbn in Hr. injection Hr as <-. cbn [events before app attempts].
  apply IH in Hloop.
  pose proof (elapse_now 0 w). pose proof (elapse_now d (elapse 0 w)).
  rewrite Nat2Z.inj_succ.
  set (m := Z.of_nat (attempts (events r'))) in *.
  assert (Hm : 0 <= m) by (subst m; lia).
  destruct (Z.eq_dec m 0) as [Hz|Hnz].
  - rewrite Hz. lia.
  - assert (d <= m * d) by nia. lia.
Qed.

(** With [LinearBackoff(d)], [d] at least one nanosecond, a call makes at
    most [ttl / d] conditional sets, rounded up: the number of sets times
    [d] stays below [ttl + d]. *)
Theorem Obtain_linear_attempts_bound (c : Client R) key ttl opt w d :
  getRetryStrategy opt = LinearBackoff d -> 1 <= d ->
  exists r c', Client_Obtain c key ttl opt w = Some (r, c') /\
    Z.of_nat (attempts (events r)) * d < Z.max 0 ttl + d.
Proof.
  intros Hretry Hd.
  destruct (Client_Obtain_returns c key ttl opt w) as (r & c' & Hr).
  exists r, c'. split; [exact Hr|].
  destruct (Client_Obtain_loop _ _ _ _ _ _ _ Hr)
    as [(token & e & c1 & w1 & _ & ->)
       | (token & c1 & w1 & r0 & _ & Hloop & ->)].
  - cbn [events attempts]. lia.
  - rewrite Hretry in Hloop. unfold LinearBackoff in Hloop.
    apply obtainLoop_linear in Hloop; [|assumption].
    pose proof (elapse_now 0 w1). cbn [events before app attempts]. lia.
Qed.

End LinearRetry.

(** 25 ms retried every 10 ms: three sets, and [3 * 10 < 25 + 10]. *)
Lemma Obtain_linear_attempts_bound_witness :
  exists r c',
    Obtain busyRedis "k" (25 * Millisecond) retryEvery10ms quietWorld
      = Some (r, c') /\
    attempts (events r) = 3%nat /\
    Z.of_nat (attempts (events r)) * (10 * Millisecond)
      < Z.max 0 (25 * Millisecond) + 10 * Millisecond.
Proof.
  destruct (Obtain_linear_attempts_bound
              (New busyRedis) "k" (25 * Millisecond) retryEvery10ms
              quietWorld (10 * Millisecond) eq_refl)
    as (r & c' & Hr & Hle).
  - vm_compute. discriminate.
  - exists r, c'. split; [exact Hr|]. split; [|exact Hle].
    vm_compute in Hr. injection Hr as <- <-. reflexivity.
Defined.

(** A lock refreshed to 1.5 ms has 1 ms left on the server. *)
Lemma Lock_Refresh_sends_milliseconds_witness :
  fst (Lock_Refresh (mkLock "k" "mine") (1500 * 1000) None (New heldConn))
    = None /\
  fst (Lock_TTL (mkLock "k" "mine")
         (snd (Lock_Refresh (mkLock "k" "mine") (1500 * 1000) None
                            (New heldConn))))
    = (1 * Millisecond, None).
Proof.
  destruct (Lock_Refresh_sends_milliseconds
              (mkLock "k" "mine") (1500 * 1000) None (New heldConn))
    as (_ & _ & Hcall & _).
  rewrite Hcall. split; reflexivity.
Defined.

Lemma holder_reaches_the_lock_witness :
  Lock_TTL (mkLock "k" "mine") (New heldConn)
    = (50 * Millisecond, None, New heldConn) /\
  fst (Lock_Refresh (mkLock "k" "mine") (20 * Millisecond) None
                    (New heldConn)) = None.
Proof.
  destruct (@holder_reaches_the_lock Table Table_RedisServer
              (mkLock "k" "mine") (New heldConn) (server heldConn)
              (server heldConn) (20 * Millisecond) None 50
              eq_refl eq_refl) as (_ & Httl).
  destruct (@holder_reaches_the_lock Table Table_RedisServer
              (mkLock "k" "mine") (New heldConn) (server heldConn)
              [("k"%string, ("mine"%string, 20))]
              (20 * Millisecond) None 50 eq_refl eq_refl) as (Href & _).
  split.
  - apply Httl; [reflexivity | lia].
  - rewrite (Href eq_refl). reflexivity.
Defined.
